(** * The three-step recall resolution flow

    A shallow embedding of the recall flow of the parenting assistant:
    the orchestrator [RecallDetailModal], its three step views, the
    stand-alone [ActionGuideScreen], and the parent [SafetyScreen] that
    opens the flow and receives its callbacks.

    React state cells are fields of one record; a handler is a state
    transformer; a callback invocation and a toast are entries of a call
    log, so that "called exactly once, with these arguments" can be
    stated. *)

From stdpp Require Import base list gmap sets strings sorting.

Open Scope string_scope.
Open Scope list_scope.
Open Scope nat_scope.

(** ** Checklist toggling

    Both checklists keep the acknowledged ids in an array and update it
    with
    [prev.includes(stepId) ? prev.filter(id => id !== stepId) : [...prev, stepId]]. *)

Section checklist.
Context `{Countable A}.
Implicit Types (l prev : list A) (stepId x : A).

(** [Array.prototype.includes]. *)
Definition includes l x : bool := bool_decide (x ∈ l).

Definition toggle stepId prev : list A :=
  if includes prev stepId
  then filter (λ id, id ≠ stepId) prev
  else prev ++ [stepId].

(** The acknowledgement set a checklist array stands for. *)
Definition acknowledged l : gset A := list_to_set l.
End checklist.

(** ** Data model *)

Inductive Severity := Critical | High | Medium | Low.

(** The recall record handed to the flow (the fields the flow reads). *)
Module Recall.
Record t := mk {
  id : string;
  productName : string;
  brand : option string;
  model : string;
  manufacturer : string;
  severity : Severity;
  actions : list string
}.
End Recall.

(** The first entry of [recallItems] in SafetyScreen (recall id '1'). *)
Definition recall_crib : Recall.t :=
  Recall.mk "1" "DreamNest Baby Crib" (Some "DreamNest") "DN-2024-CR"
    "DreamNest Inc." Critical
    [ "Stop using the crib immediately";
      "Contact DreamNest for a free repair kit";
      "Do not attempt to repair yourself";
      "Request full refund if repair is not satisfactory" ].

(** The recall the simulation panel previews with its default data. *)
Definition recall_rocker : Recall.t :=
  Recall.mk "sim-1729000000000" "DreamGlide Baby Rocker" (Some "BabySafe") "DG-2024-PRO"
    "BabySafe Industries" High
    [ "Immediately stop using the rocker and place it out of reach";
      "Check the model number on the bottom label against the recall list";
      "Contact BabySafe Industries for a free repair kit or full refund" ].

(** ** State of the running screen

    [SafetyScreen] owns [selectedRecall] and the success banner;
    [RecallDetailModal] owns [currentStep] and [slideDirection] (typed
    [1 | 2 | 3] in the source, a plain number at run time);
    [RecallDetailStep2] owns [checkedSteps] while it is mounted.  The
    last two fields record what left the components: timers scheduled
    with [setTimeout(() => onClose(), 300)] that have not run yet, and
    the calls made to toasts and to the modal's callback props. *)

Inductive SlideDirection := forward | backward.

Inductive Callee :=
| toast_success
| toast_error
| prop_onClose
| prop_onCloseWithSuccess.

(** An argument of a recorded call: a string, or the click event React
    hands to a function that is given directly as [onClick]. *)
Inductive Arg :=
| ArgText (text : string)
| ArgClickEvent.

Record Call := mkCallArgs { callee : Callee; args : list Arg }.

(** A call whose arguments are all strings; [mkCall c []] is a call
    with no argument. *)
Definition mkCall (c : Callee) (texts : list string) : Call :=
  mkCallArgs c (ArgText <$> texts).

Record System := mkSystem {
  selectedRecall : option Recall.t;
  showSuccessBanner : bool;
  successTimestamp : string;
  currentStep : nat;
  slideDirection : SlideDirection;
  checkedSteps : list nat;
  pendingClose : nat;
  calls : list Call
}.

Global Instance Severity_eq_dec : EqDecision Severity.
Proof. solve_decision. Defined.
Global Instance Recall_eq_dec : EqDecision Recall.t.
Proof. solve_decision. Defined.
Global Instance SlideDirection_eq_dec : EqDecision SlideDirection.
Proof. solve_decision. Defined.
Global Instance Callee_eq_dec : EqDecision Callee.
Proof. solve_decision. Defined.
Global Instance Arg_eq_dec : EqDecision Arg.
Proof. solve_decision. Defined.
Global Instance Call_eq_dec : EqDecision Call.
Proof. solve_decision. Defined.
Global Instance System_eq_dec : EqDecision System.
Proof. solve_decision. Defined.

(** A handler returns nothing: it is a state transformer. *)
Definition Act := System → System.

Definition andThen (f g : Act) : Act := λ s, g (f s).
Notation "f ;; g" := (andThen f g) (at level 100, g at level 200, right associativity).

Definition skip : Act := λ s, s.

Definition setSelectedRecall (v : option Recall.t) : Act := λ s,
  mkSystem v (showSuccessBanner s) (successTimestamp s) (currentStep s)
    (slideDirection s) (checkedSteps s) (pendingClose s) (calls s).
Definition setShowSuccessBanner (v : bool) : Act := λ s,
  mkSystem (selectedRecall s) v (successTimestamp s) (currentStep s)
    (slideDirection s) (checkedSteps s) (pendingClose s) (calls s).
Definition setSuccessTimestamp (v : string) : Act := λ s,
  mkSystem (selectedRecall s) (showSuccessBanner s) v (currentStep s)
    (slideDirection s) (checkedSteps s) (pendingClose s) (calls s).
Definition setCurrentStep (v : nat) : Act := λ s,
  mkSystem (selectedRecall s) (showSuccessBanner s) (successTimestamp s) v
    (slideDirection s) (checkedSteps s) (pendingClose s) (calls s).
Definition setSlideDirection (v : SlideDirection) : Act := λ s,
  mkSystem (selectedRecall s) (showSuccessBanner s) (successTimestamp s) (currentStep s)
    v (checkedSteps s) (pendingClose s) (calls s).
(** [setCheckedSteps(prev => f(prev))]. *)
Definition setCheckedSteps (f : list nat → list nat) : Act := λ s,
  mkSystem (selectedRecall s) (showSuccessBanner s) (successTimestamp s) (currentStep s)
    (slideDirection s) (f (checkedSteps s)) (pendingClose s) (calls s).
Definition setPendingClose (f : nat → nat) : Act := λ s,
  mkSystem (selectedRecall s) (showSuccessBanner s) (successTimestamp s) (currentStep s)
    (slideDirection s) (checkedSteps s) (f (pendingClose s)) (calls s).
Definition record (c : Callee) (a : list string) : Act := λ s,
  mkSystem (selectedRecall s) (showSuccessBanner s) (successTimestamp s) (currentStep s)
    (slideDirection s) (checkedSteps s) (pendingClose s) (calls s ++ [mkCall c a]).
Definition recordArgs (c : Callee) (a : list Arg) : Act := λ s,
  mkSystem (selectedRecall s) (showSuccessBanner s) (successTimestamp s) (currentStep s)
    (slideDirection s) (checkedSteps s) (pendingClose s) (calls s ++ [mkCallArgs c a]).

(** ** RecallDetailStep2: the checklist view of the modal flow *)

Module RecallDetailStep2.
Record ChecklistStep := mkStep {
  id : nat;
  label : string;
  description : string;
  hasVisualGuide : bool
}.

(** [useState<number[]>([])]: the value the state cell has at mount. *)
Definition initialCheckedSteps : list nat := [].

(** "Fixed 3-step checklist": a constant of the component, not
    computed from the [recall] prop. *)
Definition steps : list ChecklistStep :=
  [ mkStep 1 "Stop using the product immediately"
      "For your baby's safety, discontinue use right away" false;
    mkStep 2 "Verify your model number"
      "Check if your specific model is affected" true;
    mkStep 3 "Contact manufacturer for remedy"
      "Get your refund, replacement, or repair" false ].

Definition stepIds : list nat := map id steps.

Definition totalSteps : nat := length steps.

Definition allStepsComplete (checkedSteps : list nat) : bool :=
  length checkedSteps =? totalSteps.

Definition toggleStep (stepId : nat) (prev : list nat) : list nat :=
  toggle stepId prev.

(** One rendered checklist row: its React key, the checkbox value and
    the id its click handler passes to [toggleStep]. *)
Record Row := mkRow {
  key : nat;
  isChecked : bool;
  text : string;
  onClick : nat
}.

(** [steps.map((step, index) => ...)] of the render function. *)
Definition renderChecklist (recall : Recall.t) (checkedSteps : list nat) : list Row :=
  map (λ step, mkRow (id step) (includes checkedSteps (id step)) (label step) (id step))
      steps.

(** [disabled={!allStepsComplete}] on the "Mark as Done" button. *)
Definition markAsDoneDisabled (checkedSteps : list nat) : bool :=
  negb (allStepsComplete checkedSteps).

(** The checklist arrays the view can produce: the mount value followed
    by clicks on rendered rows. *)
Definition clicks (stepIdsClicked : list nat) : list nat :=
  foldl (λ prev stepId, toggleStep stepId prev) initialCheckedSteps stepIdsClicked.

Section props.
Variable onComplete : Act.
Variable onBack : option Act.

(** [onClick={() => toggleStep(step.id)}]. *)
Definition handleToggle (stepId : nat) : Act := setCheckedSteps (toggleStep stepId).

Definition handleSaveDetails : Act :=
  record toast_success ["Recall details saved to your Safety tab"].

Definition handleMarkAsDone : Act := λ s,
  if allStepsComplete (checkedSteps s) then onComplete s else s.

(** The back chevron, rendered only when [onBack] is passed. *)
Definition handleBack : Act := default skip onBack.
End props.
End RecallDetailStep2.

(** ** RecallDetailStep3: the completion view *)

Module RecallDetailStep3.
(** "Fixed 3-step completion list". *)
Definition completedActions : list string :=
  [ "Stopped using the product";
    "Verified your model number";
    "Contacted manufacturer for remedy" ].

(** How [handleShare] can end: the native share sheet resolves or
    rejects, or (without [navigator.share]) the clipboard write
    resolves or rejects. *)
Inductive ShareOutcome := nativeShared | nativeRejected | clipboardCopied | clipboardFailed.

Definition handleShare (outcome : ShareOutcome) : Act :=
  match outcome with
  | nativeShared => record toast_success ["Recall shared successfully!"]
  | nativeRejected => skip
  | clipboardCopied => record toast_success ["Recall details copied to clipboard!"]
  | clipboardFailed => record toast_error ["Unable to share. Please try again."]
  end.

Section props.
(** The props are exactly [recall] and [onClose]. *)
Variable onClose : Act.

(** "Back to Safety Center": [onClick={() => { onClose(); }}]. *)
Definition handleBackToSafetyCenter : Act := onClose.
End props.
End RecallDetailStep3.

(** ** ActionGuideScreen: the stand-alone checklist screen *)

Module ActionGuideScreen.
Record ChecklistStep := mkStep {
  id : string;
  label : string;
  locked : bool;
  action : option string;
  description : string
}.

(** [useState<string[]>(['step1'])]: "Step 1 checked by default". *)
Definition initialCheckedSteps : list string := ["step1"].

Definition steps : list ChecklistStep :=
  [ mkStep "step1" "Stop using the product immediately" true None
      "For your baby's safety, discontinue use right away";
    mkStep "step2" "Check model number" false (Some "Visual guide")
      "Verify you have the recalled model";
    mkStep "step3" "Contact manufacturer" false None
      "Get your refund or replacement" ].

(** [if (stepId === 'step1') return;] then the shared update. *)
Definition toggleStep (stepId : string) (prev : list string) : list string :=
  if bool_decide (stepId = "step1") then prev else toggle stepId prev.

Definition allDone (checkedSteps : list string) : bool :=
  length checkedSteps =? length steps.
End ActionGuideScreen.


(** ** SafetyScreen: the parent's side of the modal's props *)

Module SafetyScreen.
(** [isOpen={selectedRecall !== null}]. *)
Definition isOpen (s : System) : bool := bool_decide (is_Some (selectedRecall s)).

(** [onClose={() => setSelectedRecall(null)}]. *)
Definition onClose : Act := setSelectedRecall None.

(** [handleRecallCompleted]; [formattedTime] is what
    [new Date().toLocaleTimeString('en-US', ...)] yields at the call. *)
Definition handleRecallCompleted (formattedTime : string) : Act :=
  setSuccessTimestamp formattedTime ;;
  setShowSuccessBanner true ;;
  setSelectedRecall None.
End SafetyScreen.

(** ** RecallDetailModal: the orchestrator *)

Module RecallDetailModal.
Section props.
(** The callback props, as the parent passes them. *)
Variable onClose : Act.
Variable onCloseWithSuccess : option Act.

(** [useEffect(() => { if (isOpen) {...} }, [isOpen])]: run after a
    render in which [isOpen] differs from the previous one. *)
Definition resetOnOpen (wasOpen isOpen : bool) : Act :=
  if negb (bool_decide (wasOpen = isOpen)) && isOpen
  then setCurrentStep 1 ;; setSlideDirection forward
  else skip.

Definition handleStep1Confirm (hasProduct : bool) : Act :=
  if hasProduct
  then setSlideDirection forward ;; setCurrentStep 2
  else record toast_success ["Thanks, we'll keep monitoring for you."] ;;
       setPendingClose S.

(** The body of the timer scheduled by a "No" answer. *)
Definition timerBody : Act := record prop_onClose [] ;; onClose.

Definition handleStep2Complete : Act :=
  setSlideDirection forward ;; setCurrentStep 3.

Definition handleStep3Done : Act := record prop_onClose [] ;; onClose.

Definition handleBackToStep1 : Act :=
  setSlideDirection backward ;; setCurrentStep 1.

Definition handleBackToStep2 : Act :=
  setSlideDirection backward ;; setCurrentStep 2.

(** The [onClose] prop handed to Step 3. *)
Definition step3OnClose : Act :=
  match onCloseWithSuccess with
  | Some f => record prop_onCloseWithSuccess [] ;; f
  | None => record prop_onClose [] ;; onClose
  end.

(** The X button, [<button onClick={onClose}>]: the prop is the click
    handler itself, so it is called with the click event. *)
Definition closeButton : Act := recordArgs prop_onClose [ArgClickEvent] ;; onClose.

(** The dialog's [onOpenChange={(open) => !open && onClose()}]. *)
Definition handleOpenChange (open : bool) : Act :=
  if negb open then record prop_onClose [] ;; onClose else skip.
End props.
End RecallDetailModal.

(** ** The flow as the screen runs it

    An event is one thing that can happen to the mounted screen: a
    click on a rendered control, or a scheduled timer running.  [enabled]
    says whether the control is rendered (the modal renders exactly the
    view of [currentStep], and nothing while [recall] is null); the
    disabled attribute of "Mark as Done" is deliberately not part of it,
    so that [EvMarkAsDone] also covers a call that bypasses the button.
    [EvDismiss] is the dialog asking to close ([onOpenChange(false)]),
    [EvCloseButton] the X button. *)

Inductive Event :=
| EvSelectRecall (recall : Recall.t)
| EvConfirm (hasProduct : bool)
| EvToggleStep (stepId : nat)
| EvMarkAsDone
| EvSaveDetails
| EvBack
| EvFinish (formattedTime : string)
| EvShare (outcome : RecallDetailStep3.ShareOutcome)
| EvDismiss
| EvTimer
| EvCloseButton.

Definition isOpen : System → bool := SafetyScreen.isOpen.

(** [isOpen] and [currentStep === n]: the view of step [n] is mounted. *)
Definition shows (n : nat) (s : System) : bool := isOpen s && (currentStep s =? n).

Definition enabled (e : Event) (s : System) : bool :=
  match e with
  | EvSelectRecall _ => true
  | EvConfirm _ => shows 1 s
  | EvToggleStep stepId => shows 2 s && includes RecallDetailStep2.stepIds stepId
  | EvMarkAsDone | EvSaveDetails | EvBack => shows 2 s
  | EvFinish _ | EvShare _ => shows 3 s
  | EvDismiss | EvCloseButton => isOpen s
  | EvTimer => bool_decide (0 < pendingClose s)
  end.

(** The JSX wiring: which handler each control runs, with the props the
    parent and the modal pass down. *)
Definition handler (e : Event) : Act :=
  match e with
  | EvSelectRecall recall => setSelectedRecall (Some recall)
  | EvConfirm hasProduct => RecallDetailModal.handleStep1Confirm hasProduct
  | EvToggleStep stepId => RecallDetailStep2.handleToggle stepId
  | EvMarkAsDone =>
      RecallDetailStep2.handleMarkAsDone RecallDetailModal.handleStep2Complete
  | EvSaveDetails => RecallDetailStep2.handleSaveDetails
  | EvBack => RecallDetailStep2.handleBack (Some RecallDetailModal.handleBackToStep1)
  | EvFinish formattedTime =>
      RecallDetailStep3.handleBackToSafetyCenter
        (RecallDetailModal.step3OnClose SafetyScreen.onClose
           (Some (SafetyScreen.handleRecallCompleted formattedTime)))
  | EvShare outcome => RecallDetailStep3.handleShare outcome
  | EvDismiss => RecallDetailModal.handleOpenChange SafetyScreen.onClose false
  | EvCloseButton => RecallDetailModal.closeButton SafetyScreen.onClose
  | EvTimer => setPendingClose pred ;; RecallDetailModal.timerBody SafetyScreen.onClose
  end.

(** What React does after the handler: the modal's effect on [isOpen],
    then mounting.  Step 2 keeps its state cell only while it stays
    mounted; a fresh mount starts from [useState]'s initial value. *)
Definition commit (before : System) : Act := λ s,
  let s1 := RecallDetailModal.resetOnOpen (isOpen before) (isOpen s) s in
  if shows 2 before && shows 2 s1 then s1
  else setCheckedSteps (λ _, RecallDetailStep2.initialCheckedSteps) s1.

Definition fire (e : Event) (s : System) : option System :=
  if enabled e s then Some (commit s (handler e s)) else None.

Fixpoint run (es : list Event) (s : System) : option System :=
  match es with
  | [] => Some s
  | e :: es' => match fire e s with Some s' => run es' s' | None => None end
  end.

(** The screen at mount: no recall selected, [useState] defaults. *)
Definition initial : System :=
  mkSystem None false "" 1 forward RecallDetailStep2.initialCheckedSteps 0 [].

Inductive reachable : System → Prop :=
| reachable_initial : reachable initial
| reachable_fire s e s' : reachable s → fire e s = Some s' → reachable s'.


(** The state of the flow in the words of the transition table. *)
Inductive Phase := Closed | Step (n : nat).

Definition phase (s : System) : Phase :=
  if isOpen s then Step (currentStep s) else Closed.

(** A checklist array is well formed when it has no duplicate and only
    holds ids of rendered rows. *)
Definition wellFormed (checkedSteps : list nat) : Prop :=
  NoDup checkedSteps ∧ checkedSteps ⊆ RecallDetailStep2.stepIds.

(** [currentStep] is one of the three steps. *)
Definition validStep (s : System) : Prop := currentStep s ∈ [1; 2; 3].

(** The calls that reach the parent: invocations of the modal's
    callback props (toasts go to the toaster, not to the parent). *)
Definition toParent (c : Call) : bool :=
  match callee c with
  | prop_onClose | prop_onCloseWithSuccess => true
  | toast_success | toast_error => false
  end.

Definition parentCalls (s : System) : list Call := filter toParent (calls s).

Definition toasts (s : System) : list Call := filter (λ c, negb (toParent c)) (calls s).

(** ** The transition table of the specification

    This relation follows the table of the specification row by row; it
    is what the transitions of [fire] are compared with.  A row gives
    the phase before, the trigger, the phase after, and the direction
    the row sets, if any. *)

Inductive Trigger :=
| t_open
| t_confirmOwnership (hasProduct : bool)
| t_proceed
| t_back
| t_finish
| t_externalClose.

Inductive spec_transition : Phase → Trigger → Phase → option SlideDirection → Prop :=
| row_open : spec_transition Closed t_open (Step 1) (Some forward)
| row_confirm_yes : spec_transition (Step 1) (t_confirmOwnership true) (Step 2) (Some forward)
| row_confirm_no : spec_transition (Step 1) (t_confirmOwnership false) Closed None
| row_proceed : spec_transition (Step 2) t_proceed (Step 3) (Some forward)
| row_back_step2 : spec_transition (Step 2) t_back (Step 1) (Some backward)
| row_back_step3 : spec_transition (Step 3) t_back (Step 2) (Some backward)
| row_finish : spec_transition (Step 3) t_finish Closed None
| row_externalClose p : spec_transition p t_externalClose Closed None.

(** Which trigger of the table an event stands for.  Toggles, toasts
    and the timer stand for none: the timer is the close a "No" answer
    scheduled, not a trigger issued in the phase it runs in. *)
Inductive triggers : Event → Trigger → Prop :=
| trig_select recall : triggers (EvSelectRecall recall) t_open
| trig_confirm hasProduct : triggers (EvConfirm hasProduct) (t_confirmOwnership hasProduct)
| trig_markAsDone : triggers EvMarkAsDone t_proceed
| trig_back : triggers EvBack t_back
| trig_finish formattedTime : triggers (EvFinish formattedTime) t_finish
| trig_dismiss : triggers EvDismiss t_externalClose
| trig_closeButton : triggers EvCloseButton t_externalClose.

(** ** RecallDetailStep1: the image carousel *)

Module RecallDetailStep1.
Inductive RecallType := product | food | drug | vehicle.

(** The fields of the [recall] prop the carousel reads. *)
Module Props.
Record t := mk {
  image : string;
  images : option (list string);
  recall_type : option RecallType;
  food_label_image : option string
}.
End Props.

(** Truthiness of an optional string: defined and not empty. *)
Definition truthy (v : option string) : bool :=
  match v with
  | Some text => negb (String.eqb text "")
  | None => false
  end.

(** [recall.images && recall.images.length > 0 ? recall.images.slice(0, 3)
     : [recall.recall_type === 'food' && recall.food_label_image
          ? recall.food_label_image : recall.image]]. *)
Definition images (recall : Props.t) : list string :=
  let single :=
    match Props.recall_type recall, Props.food_label_image recall with
    | Some food, Some labelImage =>
        if truthy (Some labelImage) then [labelImage] else [Props.image recall]
    | _, _ => [Props.image recall]
    end in
  match Props.images recall with
  | Some given => if 0 <? length given then take 3 given else single
  | None => single
  end.

(** The carousel's state cells.  Touch coordinates are JavaScript
    numbers; the carousel only subtracts two of them, compares the
    difference with the swipe distance and tests them for falsiness, so
    these operations are taken as they come. *)
Section carousel.
Context {Coord : Type}.
Variable isFalsy : Coord → bool.
Variable minus : Coord → Coord → Coord.
Variable greaterThan lessThan : Coord → Coord → bool.
Variable minSwipeDistance negMinSwipeDistance : Coord.

Record Carousel := mkCarousel {
  currentImageIndex : nat;
  touchStart : option Coord;
  touchEnd : option Coord
}.

(** [!touchStart]: null, or a falsy number. *)
Definition missing (v : option Coord) : bool :=
  match v with
  | Some c => isFalsy c
  | None => true
  end.

Definition onTouchStart (clientX : Coord) (c : Carousel) : Carousel :=
  mkCarousel (currentImageIndex c) (Some clientX) None.

Definition onTouchMove (clientX : Coord) (c : Carousel) : Carousel :=
  mkCarousel (currentImageIndex c) (touchStart c) (Some clientX).

Definition onTouchEnd (shown : list string) (c : Carousel) : Carousel :=
  match touchStart c, touchEnd c with
  | Some startX, Some endX =>
      if missing (Some startX) || missing (Some endX) then c
      else
        let distance := minus startX endX in
        let isLeftSwipe := greaterThan distance minSwipeDistance in
        let isRightSwipe := lessThan distance negMinSwipeDistance in
        let afterLeft :=
          if isLeftSwipe && (currentImageIndex c <? length shown - 1)
          then S (currentImageIndex c) else currentImageIndex c in
        let afterRight :=
          if isRightSwipe && (0 <? currentImageIndex c)
          then pred afterLeft else afterLeft in
        mkCarousel afterRight (touchStart c) (touchEnd c)
  | _, _ => c
  end.

(** A pagination dot: [onClick={() => setCurrentImageIndex(index)}]. *)
Definition onDotClick (index : nat) (c : Carousel) : Carousel :=
  mkCarousel index (touchStart c) (touchEnd c).

Inductive Gesture :=
| TouchStart (clientX : Coord)
| TouchMove (clientX : Coord)
| TouchEnd
| DotClick (index : nat).

(** The dots are rendered when there is more than one image, one per
    image. *)
Definition offered (shown : list string) (g : Gesture) : bool :=
  match g with
  | DotClick index => (1 <? length shown) && (index <? length shown)
  | _ => true
  end.

Definition gesture (shown : list string) (g : Gesture) (c : Carousel) : Carousel :=
  if offered shown g then
    match g with
    | TouchStart clientX => onTouchStart clientX c
    | TouchMove clientX => onTouchMove clientX c
    | TouchEnd => onTouchEnd shown c
    | DotClick index => onDotClick index c
    end
  else c.

Definition mounted : Carousel := mkCarousel 0 None None.

Definition gestures (shown : list string) (gs : list Gesture) : Carousel :=
  foldl (λ c g, gesture shown g c) mounted gs.
End carousel.
End RecallDetailStep1.

(** ** ActionGuideScreen: what clicks on its rows produce *)

Definition actionGuideClicks (stepIdsClicked : list string) : list string :=
  foldl (λ prev stepId, ActionGuideScreen.toggleStep stepId prev)
        ActionGuideScreen.initialCheckedSteps stepIdsClicked.

Definition actionGuideStepIds : list string :=
  ActionGuideScreen.id <$> ActionGuideScreen.steps.

(** ** SafetyScreen: recent scans and the recall list *)

Module SafetyScreenLists.
(** [setRecentScans(prev => [{product, assessment}, ...prev.slice(0, 2)])]. *)
Definition handleProductScanned {Scan : Type} (scan : Scan) (prev : list Scan) : list Scan :=
  scan :: take 2 prev.

Definition scanned {Scan : Type} (scans : list Scan) : list Scan :=
  foldl (λ prev scan, handleProductScanned scan prev) [] scans.

(** The fields of a [recallItems] entry the list view reads. *)
Record RecallItem := mkItem {
  id : string;
  severity : Severity;
  category : string
}.

Inductive ActiveFilter := urgent | relevant | all.

Definition isUrgentSeverity (item : RecallItem) : bool :=
  match severity item with
  | Critical | High => true
  | Medium | Low => false
  end.

Definition isRelevantCategory (item : RecallItem) : bool :=
  String.eqb (category item) "home" || String.eqb (category item) "feeding".

Definition keeps (activeFilter : ActiveFilter) (item : RecallItem) : bool :=
  match activeFilter with
  | urgent => isUrgentSeverity item
  | relevant => isRelevantCategory item
  | all => true
  end.

Definition filteredRecalls (activeFilter : ActiveFilter) (recallItems : list RecallItem)
  : list RecallItem :=
  filter (λ item, keeps activeFilter item = true) recallItems.

(** [{ 'Critical': 0, 'High': 1, 'Medium': 2, 'Low': 3 }]. *)
Definition severityOrder (sev : Severity) : Z :=
  match sev with
  | Critical => 0
  | High => 1
  | Medium => 2
  | Low => 3
  end%Z.

(** The comparator handed to [sort]. *)
Definition compareSeverity (a b : RecallItem) : Z :=
  (severityOrder (severity a) - severityOrder (severity b))%Z.

(** [Array.prototype.sort] is stable, and this comparator is a
    consistent ordering, so the result is the one stable arrangement by
    [severityOrder]; insertion from the right computes it. *)
Fixpoint insertSorted (a : RecallItem) (sorted : list RecallItem) : list RecallItem :=
  match sorted with
  | [] => [a]
  | b :: rest =>
      if (compareSeverity a b <=? 0)%Z then a :: b :: rest
      else b :: insertSorted a rest
  end.

Definition sortedRecalls (recalls : list RecallItem) : list RecallItem :=
  foldr insertSorted [] recalls.

Definition displayRecalls (showAllRecalls : bool) (sorted : list RecallItem)
  : list RecallItem :=
  if showAllRecalls then sorted else take 3 sorted.



(** The list as rendered for a filter choice. *)
Definition recallList (activeFilter : ActiveFilter) (showAllRecalls : bool)
    (recallItems : list RecallItem) : list RecallItem :=
  displayRecalls showAllRecalls (sortedRecalls (filteredRecalls activeFilter recallItems)).

(** Ids, severities and categories of the eight [recallItems]. *)
Definition recallItems : list RecallItem :=
  [ mkItem "1" Critical "home"; mkItem "2" High "travel"; mkItem "3" High "travel";
    mkItem "4" Medium "home"; mkItem "5" Medium "feeding"; mkItem "6" Critical "feeding";
    mkItem "7" High "health"; mkItem "8" Critical "travel" ].
End SafetyScreenLists.

(** The order the recall list is shown in: by [severityOrder],
    Critical first. *)
Definition bySeverity (a b : SafetyScreenLists.RecallItem) : Prop :=
  (SafetyScreenLists.severityOrder (SafetyScreenLists.severity a)
   ≤ SafetyScreenLists.severityOrder (SafetyScreenLists.severity b))%Z.

(** ** DataSimulationPanel: editing the action steps *)

Module DataSimulationPanel.
Record SimulationData := mkData {
  product_name : string;
  model_number : string;
  manufacturer : string;
  actions : list string;
  brand : option string;
  severity : Severity
}.

Definition defaultData : SimulationData :=
  mkData "DreamGlide Baby Rocker" "DG-2024-PRO" "BabySafe Industries"
    [ "Immediately stop using the rocker and place it out of reach";
      "Check the model number on the bottom label against the recall list";
      "Contact BabySafe Industries for a free repair kit or full refund" ]
    (Some "BabySafe") High.

Definition withActions (f : list string → list string) (prev : SimulationData)
  : SimulationData :=
  mkData (product_name prev) (model_number prev) (manufacturer prev)
    (f (actions prev)) (brand prev) (severity prev).

(** [list.filter((_, i) => keep(i))], positions counted from [i]. *)
Fixpoint filterIndex {A : Type} (keep : nat → bool) (i : nat) (l : list A) : list A :=
  match l with
  | [] => []
  | x :: rest =>
      if keep i then x :: filterIndex keep (S i) rest else filterIndex keep (S i) rest
  end.

(** [list.map((x, i) => f(x, i))], positions counted from [i]. *)
Fixpoint mapIndex {A B : Type} (f : A → nat → B) (i : nat) (l : list A) : list B :=
  match l with
  | [] => []
  | x :: rest => f x i :: mapIndex f (S i) rest
  end.

Definition handleAddAction : SimulationData → SimulationData :=
  withActions (λ prev, prev ++ [""]).

Definition handleRemoveAction (index : nat) : SimulationData → SimulationData :=
  withActions (filterIndex (λ i, negb (i =? index)) 0).

Definition handleActionChange (index : nat) (value : string)
  : SimulationData → SimulationData :=
  withActions (mapIndex (λ action i, if i =? index then value else action) 0).

Definition handleReset (prev : SimulationData) : SimulationData := defaultData.

(** What the form offers: one text area per action, and a remove button
    per action only while there is more than one. *)
Inductive Edit :=
| AddStep
| RemoveStep (index : nat)
| ChangeStep (index : nat) (value : string)
| Reset.

Definition offered (e : Edit) (d : SimulationData) : bool :=
  match e with
  | AddStep | Reset => true
  | RemoveStep index => (1 <? length (actions d)) && (index <? length (actions d))
  | ChangeStep index _ => index <? length (actions d)
  end.

Definition edit (e : Edit) (d : SimulationData) : SimulationData :=
  if offered e d then
    match e with
    | AddStep => handleAddAction d
    | RemoveStep index => handleRemoveAction index d
    | ChangeStep index value => handleActionChange index value d
    | Reset => handleReset d
    end
  else d.

Definition edits (es : list Edit) : SimulationData :=
  foldl (λ d e, edit e d) defaultData es.
End DataSimulationPanel.

(** * Facts

    ** The shared checklist update *)

Section checklist_facts.
Context `{Countable A}.
Implicit Types (l prev : list A) (stepId x : A).

Lemma includes_true l x : includes l x = true ↔ x ∈ l.
Proof. apply bool_decide_eq_true. Qed.

Lemma includes_false l x : includes l x = false ↔ x ∉ l.
Proof. apply bool_decide_eq_false. Qed.

Lemma toggle_present stepId prev :
  stepId ∈ prev → toggle stepId prev = filter (λ id, id ≠ stepId) prev.
Proof. intros Hin. unfold toggle. by rewrite (proj2 (includes_true _ _) Hin). Qed.

Lemma toggle_absent stepId prev :
  stepId ∉ prev → toggle stepId prev = prev ++ [stepId].
Proof. intros Hin. unfold toggle. by rewrite (proj2 (includes_false _ _) Hin). Qed.

Lemma elem_of_toggle stepId prev x :
  x ∈ toggle stepId prev ↔ (x ≠ stepId ∧ x ∈ prev) ∨ (x = stepId ∧ stepId ∉ prev).
Proof.
  destruct (decide (stepId ∈ prev)) as [Hin|Hout].
  - rewrite toggle_present, list_elem_of_filter by done. tauto.
  - rewrite toggle_absent, elem_of_app, list_elem_of_singleton by done.
    destruct (decide (x = stepId)); subst; tauto.
Qed.

(** Toggling an id flips exactly that id's checkbox. *)
Lemma includes_toggle_same stepId prev :
  includes (toggle stepId prev) stepId = negb (includes prev stepId).
Proof.
  destruct (decide (stepId ∈ prev)) as [Hin|Hout].
  - rewrite (proj2 (includes_true prev stepId) Hin). simpl.
    apply includes_false. rewrite elem_of_toggle. tauto.
  - rewrite (proj2 (includes_false prev stepId) Hout). simpl.
    apply includes_true. rewrite elem_of_toggle. tauto.
Qed.

Lemma includes_toggle_other stepId prev x :
  x ≠ stepId → includes (toggle stepId prev) x = includes prev x.
Proof.
  intros Hne. unfold includes. apply bool_decide_ext.
  rewrite elem_of_toggle. tauto.
Qed.

Lemma NoDup_toggle stepId prev : NoDup prev → NoDup (toggle stepId prev).
Proof.
  intros Hnd. destruct (decide (stepId ∈ prev)) as [Hin|Hout].
  - rewrite toggle_present by done. by apply NoDup_filter.
  - rewrite toggle_absent by done. apply NoDup_app. split_and!; [done| |apply NoDup_singleton].
    intros y Hy ->%list_elem_of_singleton. done.
Qed.

Lemma toggle_subseteq stepId prev (ids : list A) :
  stepId ∈ ids → prev ⊆ ids → toggle stepId prev ⊆ ids.
Proof.
  intros Hid Hsub x. rewrite elem_of_toggle. intros [[_ Hx]|[-> _]]; auto.
Qed.

Lemma filter_ne_absent stepId prev :
  stepId ∉ prev → filter (λ id, id ≠ stepId) prev = prev.
Proof.
  induction prev as [|y prev IH]; [done|].
  rewrite not_elem_of_cons. intros [Hne Hout].
  rewrite filter_cons_True by done. by rewrite IH.
Qed.

(** Unchecking what was just checked gives back the very same array. *)
Lemma toggle_toggle_absent stepId prev :
  stepId ∉ prev → toggle stepId (toggle stepId prev) = prev.
Proof.
  intros Hout. rewrite (toggle_absent _ _ Hout).
  rewrite toggle_present by (apply elem_of_app; right; by apply list_elem_of_singleton).
  rewrite filter_app, filter_ne_absent by done.
  rewrite filter_cons_False by (intros Hne; by apply Hne). by rewrite filter_nil, app_nil_r.
Qed.

(** Re-checking what was just unchecked moves the id to the end. *)
Lemma toggle_toggle_present stepId prev :
  stepId ∈ prev →
  toggle stepId (toggle stepId prev) = filter (λ id, id ≠ stepId) prev ++ [stepId].
Proof.
  intros Hin. rewrite (toggle_present _ _ Hin).
  apply toggle_absent. rewrite list_elem_of_filter. tauto.
Qed.

Lemma acknowledged_toggle_toggle stepId prev :
  acknowledged (toggle stepId (toggle stepId prev)) = acknowledged prev.
Proof.
  unfold acknowledged. apply set_eq. intros x.
  rewrite !elem_of_list_to_set, !elem_of_toggle.
  destruct (decide (x = stepId)), (decide (stepId ∈ prev)); subst; tauto.
Qed.

(** On a duplicate-free array over the ids [ids], the length test
    [l.length === ids.length] is the same as "every id is in [l]". *)
Lemma length_complete l (ids : list A) :
  NoDup l → NoDup ids → l ⊆ ids →
  length l = length ids ↔ ∀ x, x ∈ ids → x ∈ l.
Proof.
  intros Hl Hids Hsub. split.
  - intros Hlen x Hx.
    assert (Hp : l ⊆+ ids) by (by apply NoDup_submseteq).
    apply submseteq_length_Permutation in Hp; [|lia].
    by rewrite Hp.
  - intros Hall. apply Nat.le_antisymm.
    + apply submseteq_length. by apply NoDup_submseteq.
    + apply submseteq_length. by apply NoDup_submseteq.
Qed.
End checklist_facts.

(** ** Sample runs *)

Example step2_toggle_first :
  RecallDetailStep2.toggleStep 1 [] = [1].
Proof. reflexivity. Qed.

Example action_guide_toggle_locked :
  ActionGuideScreen.toggleStep "step1" ["step1"; "step3"] = ["step1"; "step3"].
Proof. reflexivity. Qed.

Example action_guide_toggle_other :
  ActionGuideScreen.toggleStep "step3" ["step1"; "step3"] = ["step1"].
Proof. reflexivity. Qed.

Example session_yes :
  run [EvSelectRecall recall_crib; EvConfirm true; EvToggleStep 2; EvToggleStep 1;
       EvToggleStep 3; EvMarkAsDone; EvFinish "3:05 PM"] initial
  = Some (mkSystem None true "3:05 PM" 3 forward [] 0
            [mkCall prop_onCloseWithSuccess []]).
Proof. reflexivity. Qed.

Example session_no :
  run [EvSelectRecall recall_crib; EvConfirm false; EvTimer] initial
  = Some (mkSystem None false "" 1 forward [] 0
            [mkCall toast_success ["Thanks, we'll keep monitoring for you."];
             mkCall prop_onClose []]).
Proof. reflexivity. Qed.

Example mark_as_done_rejected :
  run [EvSelectRecall recall_crib; EvConfirm true; EvToggleStep 2; EvMarkAsDone] initial
  = run [EvSelectRecall recall_crib; EvConfirm true; EvToggleStep 2] initial.
Proof. reflexivity. Qed.

Example back_from_step3_not_offered :
  run [EvSelectRecall recall_crib; EvConfirm true; EvToggleStep 1; EvToggleStep 2;
       EvToggleStep 3; EvMarkAsDone; EvBack] initial = None.
Proof. reflexivity. Qed.

Lemma reachable_run es s : run es initial = Some s → reachable s.
Proof.
  assert (Hgen : ∀ es s0 s, reachable s0 → run es s0 = Some s → reachable s).
  { clear. induction es as [|e es IH]; intros s0 s Hr Hrun; simpl in Hrun.
    - by simplify_eq.
    - destruct (fire e s0) as [s1|] eqn:Hf; [|done].
      eapply IH; [|done]. by eapply reachable_fire. }
  apply Hgen. constructor.
Qed.

(** ** The checklist of RecallDetailStep2 *)

Lemma stepIds_eq : RecallDetailStep2.stepIds = [1; 2; 3].
Proof. reflexivity. Qed.

Lemma NoDup_stepIds : NoDup RecallDetailStep2.stepIds.
Proof. rewrite stepIds_eq. apply (bool_decide_unpack _). by compute. Qed.

Lemma elem_of_stepIds x :
  x ∈ RecallDetailStep2.stepIds ↔
  ∃ step, step ∈ RecallDetailStep2.steps ∧ RecallDetailStep2.id step = x.
Proof.
  unfold RecallDetailStep2.stepIds. rewrite list_elem_of_fmap.
  split; intros (step & H1 & H2); exists step; by split.
Qed.

Lemma wellFormed_nil : wellFormed [].
Proof. split; [constructor|]. intros x Hx. by apply elem_of_nil in Hx. Qed.

Lemma wellFormed_toggle stepId checkedSteps :
  stepId ∈ RecallDetailStep2.stepIds →
  wellFormed checkedSteps →
  wellFormed (RecallDetailStep2.toggleStep stepId checkedSteps).
Proof.
  intros Hid [Hnd Hsub]. split.
  - by apply NoDup_toggle.
  - by apply toggle_subseteq.
Qed.

Lemma wellFormed_clicks stepIdsClicked :
  Forall (λ stepId, stepId ∈ RecallDetailStep2.stepIds) stepIdsClicked →
  wellFormed (RecallDetailStep2.clicks stepIdsClicked).
Proof.
  unfold RecallDetailStep2.clicks.
  generalize wellFormed_nil.
  change RecallDetailStep2.initialCheckedSteps with (@nil nat).
  generalize (@nil nat) as acc.
  induction stepIdsClicked as [|stepId rest IH]; intros acc Hacc Hall; simpl.
  - done.
  - inversion Hall as [|? ? Hid Hrest]; subst.
    apply IH; [|done]. by apply wellFormed_toggle.
Qed.

(** On a well-formed array the length test of [allStepsComplete] says
    that every row is acknowledged. *)
Lemma allStepsComplete_iff checkedSteps :
  wellFormed checkedSteps →
  RecallDetailStep2.allStepsComplete checkedSteps = true ↔
  ∀ step, step ∈ RecallDetailStep2.steps → RecallDetailStep2.id step ∈ checkedSteps.
Proof.
  intros [Hnd Hsub]. unfold RecallDetailStep2.allStepsComplete.
  rewrite Nat.eqb_eq.
  change RecallDetailStep2.totalSteps with (length RecallDetailStep2.stepIds).
  rewrite (length_complete _ _ Hnd NoDup_stepIds Hsub).
  split.
  - intros Hall step Hstep. apply Hall, elem_of_stepIds. by exists step.
  - intros Hall x (step & Hstep & <-)%elem_of_stepIds. by apply Hall.
Qed.

(** C9: the checklist array of Step 2 never holds a step id twice, so
    the test [checkedSteps.length === totalSteps] that enables "Mark as
    Done" holds exactly when every step id of the checklist is
    acknowledged.  The arrays are those the view produces: the empty
    array of the mount followed by clicks on rendered rows. *)
Theorem step2_no_duplicates_length_test (stepIdsClicked : list nat) :
  Forall (λ stepId, stepId ∈ RecallDetailStep2.stepIds) stepIdsClicked →
  NoDup (RecallDetailStep2.clicks stepIdsClicked) ∧
  (RecallDetailStep2.allStepsComplete (RecallDetailStep2.clicks stepIdsClicked) = true ↔
   ∀ step, step ∈ RecallDetailStep2.steps →
           RecallDetailStep2.id step ∈ RecallDetailStep2.clicks stepIdsClicked).
Proof.
  intros Hall. pose proof (wellFormed_clicks _ Hall) as Hwf. split.
  - apply Hwf.
  - by apply allStepsComplete_iff.
Qed.

Lemma step2_no_duplicates_length_test_witness :
  NoDup (RecallDetailStep2.clicks [2; 3; 2; 1; 2]) ∧
  (RecallDetailStep2.allStepsComplete (RecallDetailStep2.clicks [2; 3; 2; 1; 2]) = true ↔
   ∀ step, step ∈ RecallDetailStep2.steps →
           RecallDetailStep2.id step ∈ RecallDetailStep2.clicks [2; 3; 2; 1; 2]).
Proof.
  apply (step2_no_duplicates_length_test [2; 3; 2; 1; 2]).
  apply (bool_decide_unpack _). vm_compute. reflexivity.
Defined.

(** C10: toggling twice with the same id gives back the same
    acknowledgement set, for every array and every id of Step 2 and for
    every id of ActionGuideScreen other than the locked 'step1'; and in
    ActionGuideScreen toggling 'step1' any number of times changes
    nothing. *)
Theorem toggle_twice_same_set :
  (∀ (stepId : nat) (checkedSteps : list nat),
     acknowledged (RecallDetailStep2.toggleStep stepId
                     (RecallDetailStep2.toggleStep stepId checkedSteps))
     = acknowledged checkedSteps) ∧
  (∀ (stepId : string) (checkedSteps : list string),
     stepId ≠ "step1" →
     acknowledged (ActionGuideScreen.toggleStep stepId
                     (ActionGuideScreen.toggleStep stepId checkedSteps))
     = acknowledged checkedSteps) ∧
  (∀ (n : nat) (checkedSteps : list string),
     Nat.iter n (ActionGuideScreen.toggleStep "step1") checkedSteps = checkedSteps).
Proof.
  split_and!.
  - intros. apply acknowledged_toggle_toggle.
  - intros stepId checkedSteps Hne. unfold ActionGuideScreen.toggleStep.
    rewrite bool_decide_eq_false_2 by done. apply acknowledged_toggle_toggle.
  - intros n checkedSteps. induction n as [|n IH]; simpl; [done|].
    by rewrite IH.
Qed.

Lemma toggle_twice_same_set_witness :
  "step3" ≠ "step1" ∧
  acknowledged (ActionGuideScreen.toggleStep "step3"
                  (ActionGuideScreen.toggleStep "step3" ["step1"; "step3"]))
  = acknowledged ["step1"; "step3"].
Proof.
  split; [discriminate|].
  apply (proj1 (proj2 toggle_twice_same_set) "step3" ["step1"; "step3"]).
  discriminate.
Defined.

(** ** Rows of the Step 2 checklist *)

(** C3, as stated, fails: recall '1' lists four actions and Step 2
    renders three rows for it. *)
Lemma step2_rows_not_from_actions :
  length (Recall.actions recall_crib) = 4 ∧
  length (RecallDetailStep2.renderChecklist recall_crib []) = 3 ∧
  RecallDetailStep2.text <$> RecallDetailStep2.renderChecklist recall_crib []
  ≠ Recall.actions recall_crib.
Proof. split_and!; [reflexivity..|discriminate]. Qed.

(** C3, amended: for every recall, Step 2 renders exactly the three
    rows of its fixed checklist, with keys 1, 2, 3 in that order and
    the fixed labels, one toggle each; the rows do not depend on the
    recall's [actions]. *)
Theorem step2_renders_fixed_three_rows (recall : Recall.t) (checkedSteps : list nat) :
  RecallDetailStep2.key <$> RecallDetailStep2.renderChecklist recall checkedSteps = [1; 2; 3] ∧
  RecallDetailStep2.onClick <$> RecallDetailStep2.renderChecklist recall checkedSteps = [1; 2; 3] ∧
  RecallDetailStep2.text <$> RecallDetailStep2.renderChecklist recall checkedSteps
  = [ "Stop using the product immediately";
      "Verify your model number";
      "Contact manufacturer for remedy" ] ∧
  ∀ other : Recall.t,
    RecallDetailStep2.renderChecklist other checkedSteps
    = RecallDetailStep2.renderChecklist recall checkedSteps.
Proof. split_and!; reflexivity. Qed.

(** ** Transitions of the flow *)

Lemma shows_true n s : shows n s = true ↔ isOpen s = true ∧ currentStep s = n.
Proof. unfold shows. by rewrite andb_true_iff, Nat.eqb_eq. Qed.

Lemma fire_Some e s s' :
  fire e s = Some s' ↔ enabled e s = true ∧ s' = commit s (handler e s).
Proof.
  unfold fire. destruct (enabled e s); split.
  - intros [= <-]. done.
  - intros [_ ->]. done.
  - done.
  - intros [? _]. done.
Qed.

(** Mounting touches [checkedSteps] only. *)
Lemma commit_phase before s :
  phase (commit before s)
  = phase (RecallDetailModal.resetOnOpen (isOpen before) (isOpen s) s).
Proof. unfold commit. by destruct (_ && _). Qed.

Lemma commit_slideDirection before s :
  slideDirection (commit before s)
  = slideDirection (RecallDetailModal.resetOnOpen (isOpen before) (isOpen s) s).
Proof. unfold commit. by destruct (_ && _). Qed.

Lemma commit_currentStep before s :
  currentStep (commit before s)
  = currentStep (RecallDetailModal.resetOnOpen (isOpen before) (isOpen s) s).
Proof. unfold commit. by destruct (_ && _). Qed.

(** The effect on [isOpen] and the mounting of Step 2 touch the step,
    the direction and the checklist, nothing else. *)
Lemma commit_keeps before s :
  selectedRecall (commit before s) = selectedRecall s ∧
  showSuccessBanner (commit before s) = showSuccessBanner s ∧
  successTimestamp (commit before s) = successTimestamp s ∧
  pendingClose (commit before s) = pendingClose s ∧
  calls (commit before s) = calls s.
Proof.
  unfold commit, RecallDetailModal.resetOnOpen.
  by destruct (_ && _), (_ && _).
Qed.

Lemma parentCalls_commit before s : parentCalls (commit before s) = parentCalls s.
Proof. unfold parentCalls. by rewrite (proj2 (proj2 (proj2 (proj2 (commit_keeps before s))))). Qed.

Lemma isOpen_commit before s : isOpen (commit before s) = isOpen s.
Proof. unfold isOpen, SafetyScreen.isOpen. by rewrite (proj1 (commit_keeps before s)). Qed.

Lemma phase_Step_shows s n : phase s = Step n ↔ shows n s = true.
Proof.
  rewrite shows_true. unfold phase. destruct (isOpen s); split.
  - by intros [= ->].
  - by intros [_ ->].
  - done.
  - by intros [? _].
Qed.

(** Case analysis on a fired event: name the fields of the state, split
    on whether a recall is selected, and use what [enabled] says about
    the mounted view. *)
Ltac fire_cases s Hen :=
  destruct s as [sel ban stamp cur dir chk pend log];
  destruct sel as [shown|];
  cbn in Hen;
  try discriminate Hen;
  repeat match type of Hen with
         | (_ && _) = true => apply andb_true_iff in Hen as [Hen ?]
         end;
  try (apply Nat.eqb_eq in Hen; subst cur).

Ltac by_row trig dir :=
  right; right; exists trig, dir; split_and!;
  [constructor | cbv; constructor | intros d Hd; by simplify_eq].

Lemma fire_follows_table e s s' :
  fire e s = Some s' →
  phase s' = phase s ∨
  (e = EvTimer ∧ phase s' = Closed) ∨
  ∃ trig dir, triggers e trig ∧ spec_transition (phase s) trig (phase s') dir ∧
              ∀ d, dir = Some d → slideDirection s' = d.
Proof.
  intros [Hen ->]%fire_Some. rewrite commit_phase, commit_slideDirection.
  destruct e as [recall|hasProduct|stepId| | | |formattedTime|outcome| | |];
    fire_cases s Hen.
  - (* a recall is selected while another is shown *) by left.
  - (* a recall is selected while the modal is closed *)
    by_row t_open (Some forward).
  - destruct hasProduct.
    + by_row (t_confirmOwnership true) (Some forward).
    + by left.
  - by left.
  - unfold handler, RecallDetailStep2.handleMarkAsDone. simpl.
    destruct (RecallDetailStep2.allStepsComplete chk).
    + by_row t_proceed (Some forward).
    + by left.
  - by left.
  - by_row t_back (Some backward).
  - by_row t_finish (@None SlideDirection).
  - destruct outcome; by left.
  - by_row t_externalClose (@None SlideDirection).
  - (* the timer runs while the modal is open *)
    right; left. by split.
  - (* the timer runs after the modal was closed *) by left.
  - by_row t_externalClose (@None SlideDirection).
Qed.

Lemma commit_checkedSteps before s :
  checkedSteps (commit before s) = [] ∨
  checkedSteps (commit before s) = checkedSteps s.
Proof.
  unfold commit. destruct (_ && _); [right|left; reflexivity].
  unfold RecallDetailModal.resetOnOpen. by destruct (_ && _).
Qed.

(** A handler leaves the checklist alone, except a click on a rendered
    row, which toggles that row's id. *)
Lemma handler_checkedSteps e s :
  enabled e s = true →
  checkedSteps (handler e s) = checkedSteps s ∨
  ∃ stepId, stepId ∈ RecallDetailStep2.stepIds ∧
            checkedSteps (handler e s)
            = RecallDetailStep2.toggleStep stepId (checkedSteps s).
Proof.
  intros Hen.
  destruct e as [recall|hasProduct|stepId| | | |formattedTime|outcome| | |].
  3: { right. exists stepId. split; [|reflexivity].
       simpl in Hen. apply andb_true_iff in Hen as [_ Hin].
       by apply includes_true in Hin. }
  all: left.
  - reflexivity.
  - by destruct hasProduct.
  - unfold handler, RecallDetailStep2.handleMarkAsDone.
    by destruct (RecallDetailStep2.allStepsComplete _).
  - reflexivity.
  - reflexivity.
  - reflexivity.
  - by destruct outcome.
  - reflexivity.
  - reflexivity.
  - reflexivity.
Qed.

Lemma fire_wellFormed e s s' :
  wellFormed (checkedSteps s) → fire e s = Some s' → wellFormed (checkedSteps s').
Proof.
  intros Hwf [Hen ->]%fire_Some.
  destruct (commit_checkedSteps s (handler e s)) as [->| ->].
  - apply wellFormed_nil.
  - destruct (handler_checkedSteps e s Hen) as [->|(stepId & Hid & ->)].
    + done.
    + by apply wellFormed_toggle.
Qed.

Ltac valid_step := simpl; apply (bool_decide_unpack _); reflexivity.

Lemma fire_validStep e s s' :
  validStep s → fire e s = Some s' → validStep s'.
Proof.
  unfold validStep. intros Hv [Hen ->]%fire_Some. rewrite commit_currentStep.
  destruct e as [recall|hasProduct|stepId| | | |formattedTime|outcome| | |];
    fire_cases s Hen; simpl in Hv.
  - done.
  - valid_step.
  - destruct hasProduct; [valid_step|done].
  - done.
  - unfold handler, RecallDetailStep2.handleMarkAsDone. simpl.
    destruct (RecallDetailStep2.allStepsComplete chk); [valid_step|done].
  - done.
  - valid_step.
  - done.
  - by destruct outcome.
  - done.
  - done.
  - done.
  - done.
Qed.

(** What holds of every state the screen can be in. *)
Lemma reachable_invariant s :
  reachable s → validStep s ∧ wellFormed (checkedSteps s).
Proof.
  induction 1 as [|s e s' Hr [IHv IHw] Hf].
  - split; [unfold validStep; valid_step | apply wellFormed_nil].
  - split; [by eapply fire_validStep | by eapply fire_wellFormed].
Qed.

(** A handler that changes nothing is committed without change: the
    mounted Step 2 keeps its checklist. *)
Lemma commit_same s : shows 2 s = true → commit s s = s.
Proof.
  intros Hs. unfold commit, RecallDetailModal.resetOnOpen.
  rewrite bool_decide_eq_true_2 by done. simpl. unfold skip.
  by rewrite Hs.
Qed.

(** ** Locked first item *)

(** C2, as stated, fails on the modal's Step 2: on entry its checklist
    is empty, so the first item is not checked, and toggling the first
    item checks it. *)
Lemma step2_first_item_not_locked :
  ∃ s, run [EvSelectRecall recall_crib; EvConfirm true] initial = Some s ∧
       shows 2 s = true ∧
       includes (checkedSteps s) 1 = false ∧
       RecallDetailStep2.toggleStep 1 (checkedSteps s) ≠ checkedSteps s.
Proof. eexists. split; [reflexivity|]. split_and!; [done..|discriminate]. Qed.

(** C2, amended: in ActionGuideScreen the only locked step is 'step1',
    the first one; it is checked at mount, toggling it changes nothing,
    and toggling any other id flips that id's checkbox.  In the modal's
    Step 2 the state cell starts empty, and in the running flow every
    event that brings Step 2 up leaves the checklist empty; a click on
    any row, the first included, toggles that row's id and flips its
    checkbox. *)
Theorem locked_first_item_action_guide_only :
  (ActionGuideScreen.id <$> filter (λ step, ActionGuideScreen.locked step = true)
                              ActionGuideScreen.steps = ["step1"] ∧
   ActionGuideScreen.id <$> head ActionGuideScreen.steps = Some "step1" ∧
   includes ActionGuideScreen.initialCheckedSteps "step1" = true) ∧
  (∀ checkedSteps : list string,
     ActionGuideScreen.toggleStep "step1" checkedSteps = checkedSteps) ∧
  (∀ (stepId : string) (checkedSteps : list string),
     stepId ≠ "step1" →
     includes (ActionGuideScreen.toggleStep stepId checkedSteps) stepId
     = negb (includes checkedSteps stepId)) ∧
  RecallDetailStep2.initialCheckedSteps = [] ∧
  (∀ (stepId : nat) (checkedSteps : list nat),
     includes (RecallDetailStep2.toggleStep stepId checkedSteps) stepId
     = negb (includes checkedSteps stepId)) ∧
  (∀ (e : Event) (s s' : System),
     fire e s = Some s' → shows 2 s = false → shows 2 s' = true →
     checkedSteps s' = []) ∧
  (∀ (stepId : nat) (s : System),
     shows 2 s = true → stepId ∈ RecallDetailStep2.stepIds →
     ∃ s', fire (EvToggleStep stepId) s = Some s' ∧
           shows 2 s' = true ∧
           checkedSteps s' = RecallDetailStep2.toggleStep stepId (checkedSteps s) ∧
           includes (checkedSteps s') stepId = negb (includes (checkedSteps s) stepId)).
Proof.
  split_and!; try reflexivity.
  - intros stepId checkedSteps Hne. unfold ActionGuideScreen.toggleStep.
    rewrite bool_decide_eq_false_2 by done. apply includes_toggle_same.
  - intros. apply includes_toggle_same.
  - intros e s s' [_ ->]%fire_Some Hbefore _. unfold commit.
    by rewrite Hbefore.
  - intros stepId s Hs Hid.
    assert (Hen : enabled (EvToggleStep stepId) s = true).
    { simpl. rewrite Hs. simpl. by apply includes_true. }
    eexists. split; [apply fire_Some; split; [exact Hen|reflexivity]|].
    apply shows_true in Hs as [Ho Hc].
    destruct s as [sel ban stamp cur dir chk pend log]; destruct sel as [shown|]; [|done].
    simpl in Hc. subst cur. split_and!; try reflexivity.
    apply includes_toggle_same.
Qed.

Lemma locked_first_item_action_guide_only_witness :
  "step2" ≠ "step1" ∧
  includes (ActionGuideScreen.toggleStep "step2" ["step1"]) "step2"
  = negb (includes ["step1"] "step2").
Proof.
  split; [discriminate|].
  apply (proj1 (proj2 (proj2 locked_first_item_action_guide_only)) "step2" ["step1"]).
  discriminate.
Defined.

(** ** The guard of "Mark as Done" *)

(** C1, as stated, fails: the orchestrator's own handler moves to step
    3 whatever the checklist holds.  Here two of the three items are
    checked. *)
Lemma orchestrator_has_no_guard :
  ∃ s, run [EvSelectRecall recall_crib; EvConfirm true; EvToggleStep 2; EvToggleStep 3]
           initial = Some s ∧
       shows 2 s = true ∧
       checkedSteps s = [2; 3] ∧
       RecallDetailStep2.allStepsComplete (checkedSteps s) = false ∧
       currentStep (RecallDetailModal.handleStep2Complete s) = 3 ∧
       currentStep (RecallDetailModal.handleStep2Complete s) ≠ currentStep s.
Proof. eexists. split; [reflexivity|]. split_and!; [reflexivity..|discriminate]. Qed.

(** C1, amended: in every state of the flow that shows Step 2, "Mark
    as Done" changes nothing at all while some item is not
    acknowledged, and moves the flow to Step 3 with direction forward
    when every item is acknowledged.  The test is made by Step 2's
    handler [handleMarkAsDone], also when the call bypasses the disabled
    button; the orchestrator's [handleStep2Complete] makes no test and
    always sets step 3. *)
Theorem mark_as_done_guarded_by_step2 (s : System) :
  reachable s →
  shows 2 s = true →
  ((∃ step, step ∈ RecallDetailStep2.steps ∧
            RecallDetailStep2.id step ∉ checkedSteps s) →
   fire EvMarkAsDone s = Some s) ∧
  ((∀ step, step ∈ RecallDetailStep2.steps →
            RecallDetailStep2.id step ∈ checkedSteps s) →
   ∃ s', fire EvMarkAsDone s = Some s' ∧ phase s' = Step 3 ∧
         slideDirection s' = forward) ∧
  (∀ s0, currentStep (RecallDetailModal.handleStep2Complete s0) = 3 ∧
         slideDirection (RecallDetailModal.handleStep2Complete s0) = forward).
Proof.
  intros Hr Hs.
  destruct (reachable_invariant s Hr) as [_ Hwf].
  pose proof (allStepsComplete_iff _ Hwf) as Hiff.
  split_and!.
  - intros (step & Hstep & Hout).
    assert (Hno : RecallDetailStep2.allStepsComplete (checkedSteps s) = false).
    { apply not_true_is_false. intros Hall. apply Hout. by apply Hiff. }
    apply fire_Some. split; [exact Hs|].
    unfold handler, RecallDetailStep2.handleMarkAsDone. rewrite Hno.
    symmetry. by apply commit_same.
  - intros Hall. apply Hiff in Hall.
    eexists. split; [apply fire_Some; split; [exact Hs|reflexivity]|].
    rewrite commit_phase, commit_slideDirection.
    unfold handler, RecallDetailStep2.handleMarkAsDone. rewrite Hall.
    apply shows_true in Hs as [Ho Hc].
    destruct s as [sel ban stamp cur dir chk pend log]; destruct sel; [|done].
    by split.
  - intros s0. by split.
Qed.

Lemma mark_as_done_guarded_by_step2_witness :
  ∃ s, run [EvSelectRecall recall_crib; EvConfirm true; EvToggleStep 2] initial = Some s ∧
       fire EvMarkAsDone s = Some s.
Proof.
  eexists. split; [reflexivity|].
  match goal with
  | |- fire _ ?s = _ =>
      refine (proj1 (mark_as_done_guarded_by_step2 s
                       (reachable_run
                          [EvSelectRecall recall_crib; EvConfirm true; EvToggleStep 2]
                          s eq_refl)
                       eq_refl) _)
  end.
  exists (RecallDetailStep2.mkStep 1 "Stop using the product immediately"
            "For your baby's safety, discontinue use right away" false).
  split; [apply list_elem_of_here | apply (bool_decide_unpack _); reflexivity].
Defined.

(** ** Finishing from Step 3 *)

(** C4, as stated, fails: the call that reports the completion to the
    parent carries no argument, so neither the recall's id nor a
    timestamp is passed. *)
Lemma finish_passes_no_arguments :
  ∃ s s',
    run [EvSelectRecall recall_crib; EvConfirm true; EvToggleStep 1; EvToggleStep 2;
         EvToggleStep 3; EvMarkAsDone] initial = Some s ∧
    selectedRecall s = Some recall_crib ∧
    shows 3 s = true ∧
    fire (EvFinish "3:05 PM") s = Some s' ∧
    calls s' = [mkCall prop_onCloseWithSuccess []] ∧
    ¬ ∃ resolvedAt,
        mkCall prop_onCloseWithSuccess [Recall.id recall_crib; resolvedAt] ∈ calls s'.
Proof.
  exists (mkSystem (Some recall_crib) false "" 3 forward [] 0 []),
         (mkSystem None true "3:05 PM" 3 forward [] 0 [mkCall prop_onCloseWithSuccess []]).
  split_and!; [reflexivity..|].
  intros [resolvedAt Hin]. simpl in Hin.
  apply list_elem_of_singleton in Hin. discriminate Hin.
Qed.

(** C4, amended: "Back to Safety Center" on Step 3 calls the parent's
    success callback exactly once, with no argument; the parent then
    closes the flow, shows the success banner and keeps the time of the
    call in the locale's clock format. *)
Theorem finish_closes_and_reports_success (s : System) (formattedTime : string) :
  shows 3 s = true →
  ∃ s', fire (EvFinish formattedTime) s = Some s' ∧
        phase s' = Closed ∧
        calls s' = calls s ++ [mkCall prop_onCloseWithSuccess []] ∧
        showSuccessBanner s' = true ∧
        successTimestamp s' = formattedTime.
Proof.
  intros Hs. eexists. split; [apply fire_Some; split; [exact Hs|reflexivity]|].
  apply shows_true in Hs as [Ho Hc].
  destruct s as [sel ban stamp cur dir chk pend log]; destruct sel; [|done].
  simpl in Hc. subst cur. by split_and!.
Qed.

Lemma finish_closes_and_reports_success_witness :
  ∃ s s',
    run [EvSelectRecall recall_crib; EvConfirm true; EvToggleStep 3; EvToggleStep 1;
         EvToggleStep 2; EvMarkAsDone] initial = Some s ∧
    fire (EvFinish "3:05 PM") s = Some s' ∧
    phase s' = Closed ∧
    calls s' = calls s ++ [mkCall prop_onCloseWithSuccess []] ∧
    showSuccessBanner s' = true ∧
    successTimestamp s' = "3:05 PM".
Proof.
  eexists.
  match goal with
  | |- ∃ s', run _ _ = Some ?s ∧ _ =>
      unify s (mkSystem (Some recall_crib) false "" 3 forward [] 0 []);
      destruct (finish_closes_and_reports_success s "3:05 PM" eq_refl) as [s' Hs']
  end.
  exists s'. split; [reflexivity|exact Hs'].
Defined.

(** ** Opening the flow *)

(** C5: whenever the flow is opened from the closed state, whatever
    step and direction the last session left behind and whatever recall
    was shown before, the flow shows the new recall at step 1 with
    direction forward. *)
Theorem open_resets_to_step1 (s : System) (recall : Recall.t) :
  isOpen s = false →
  ∃ s', fire (EvSelectRecall recall) s = Some s' ∧
        selectedRecall s' = Some recall ∧
        currentStep s' = 1 ∧
        slideDirection s' = forward ∧
        phase s' = Step 1.
Proof.
  intros Hc. eexists. split; [reflexivity|].
  destruct s as [sel ban stamp cur dir chk pend log]; destruct sel; [done|].
  rewrite commit_phase, commit_slideDirection, commit_currentStep.
  by split_and!.
Qed.

Lemma open_resets_to_step1_witness :
  ∃ s s',
    run [EvSelectRecall recall_crib; EvConfirm true; EvToggleStep 1; EvToggleStep 2;
         EvToggleStep 3; EvMarkAsDone; EvFinish "3:05 PM"] initial = Some s ∧
    currentStep s = 3 ∧
    fire (EvSelectRecall recall_rocker) s = Some s' ∧
    selectedRecall s' = Some recall_rocker ∧
    currentStep s' = 1 ∧
    slideDirection s' = forward ∧
    phase s' = Step 1.
Proof.
  eexists.
  match goal with
  | |- ∃ s', run _ _ = Some ?s ∧ _ =>
      unify s (mkSystem None true "3:05 PM" 3 forward [] 0
                 [mkCall prop_onCloseWithSuccess []]);
      destruct (open_resets_to_step1 s recall_rocker eq_refl) as [s' Hs']
  end.
  exists s'. split; [reflexivity|]. split; [reflexivity|exact Hs'].
Defined.

(** While a recall is shown, selecting another one replaces the recall
    and leaves the step where it is: the effect only runs when [isOpen]
    changes. *)
Lemma select_while_open_keeps_step (s : System) (recall : Recall.t) :
  isOpen s = true →
  ∃ s', fire (EvSelectRecall recall) s = Some s' ∧
        selectedRecall s' = Some recall ∧
        currentStep s' = currentStep s ∧
        slideDirection s' = slideDirection s.
Proof.
  intros Ho. eexists. split; [reflexivity|].
  destruct s as [sel ban stamp cur dir chk pend log]; destruct sel; [|done].
  rewrite commit_slideDirection, commit_currentStep.
  split_and!; try reflexivity.
  unfold commit. by destruct (_ && _).
Qed.

(** ** The transition table *)

(** C6, as stated, fails: a "No" on Step 1 is the table's trigger
    confirmOwnership(false), whose row leads to Closed, and the flow
    stays on Step 1; a "Yes" is still accepted there, and the close the
    "No" scheduled then takes the flow from Step 2 to Closed on no
    trigger of the table. *)
Lemma no_answer_departs_from_table :
  ∃ s s1 s2 s3,
    run [EvSelectRecall recall_crib] initial = Some s ∧
    phase s = Step 1 ∧
    fire (EvConfirm false) s = Some s1 ∧
    phase s1 = Step 1 ∧
    (∀ dir, ¬ spec_transition (phase s) (t_confirmOwnership false) (phase s1) dir) ∧
    fire (EvConfirm true) s1 = Some s2 ∧
    phase s2 = Step 2 ∧
    fire EvTimer s2 = Some s3 ∧
    phase s3 = Closed ∧
    (∀ trig, ¬ triggers EvTimer trig).
Proof.
  exists (mkSystem (Some recall_crib) false "" 1 forward [] 0 []),
         (mkSystem (Some recall_crib) false "" 1 forward [] 1
            [mkCall toast_success ["Thanks, we'll keep monitoring for you."]]),
         (mkSystem (Some recall_crib) false "" 2 forward [] 1
            [mkCall toast_success ["Thanks, we'll keep monitoring for you."]]),
         (mkSystem None false "" 2 forward [] 0
            [mkCall toast_success ["Thanks, we'll keep monitoring for you."];
             mkCall prop_onClose []]).
  split_and!; try reflexivity.
  - intros dir Hrow. inversion Hrow.
  - intros trig Htrig. inversion Htrig.
Qed.

(** C6, amended: in every state the screen can reach, [currentStep] is
    1, 2 or 3 and no event takes the flow from Step 1 to Step 3.  What
    each event does to the phase is fixed: opening from Closed shows
    Step 1 forward; "Yes" takes Step 1 to Step 2 forward; "Mark as
    Done" takes Step 2 to Step 3 forward when the checklist is complete
    and changes nothing otherwise; the back chevron takes Step 2 to Step
    1 backward; finish, the dialog's close request and the X button
    close the flow; "No" leaves the flow on Step 1 and schedules a
    close, and that timer closes the flow from whatever phase it runs
    in; toggles and toasts keep the phase.  Each control is offered in
    its own phase only, so Step 3 offers no back.  Every change of phase
    other than the timer's is a row of the specification's table with
    the direction the row sets. *)
Theorem transitions_follow_table (s : System) :
  reachable s →
  currentStep s ∈ [1; 2; 3] ∧
  (∀ e s', fire e s = Some s' →
     currentStep s' ∈ [1; 2; 3] ∧
     ¬ (phase s = Step 1 ∧ phase s' = Step 3) ∧
     match e with
     | EvSelectRecall _ =>
         if isOpen s then phase s' = phase s
         else phase s' = Step 1 ∧ slideDirection s' = forward
     | EvConfirm true =>
         phase s = Step 1 ∧ phase s' = Step 2 ∧ slideDirection s' = forward
     | EvConfirm false =>
         phase s = Step 1 ∧ phase s' = Step 1 ∧ pendingClose s' = S (pendingClose s)
     | EvMarkAsDone =>
         phase s = Step 2 ∧
         if RecallDetailStep2.allStepsComplete (checkedSteps s)
         then phase s' = Step 3 ∧ slideDirection s' = forward
         else s' = s
     | EvBack =>
         phase s = Step 2 ∧ phase s' = Step 1 ∧ slideDirection s' = backward
     | EvFinish _ => phase s = Step 3 ∧ phase s' = Closed
     | EvDismiss | EvCloseButton => phase s ≠ Closed ∧ phase s' = Closed
     | EvTimer => phase s' = Closed
     | EvToggleStep _ | EvSaveDetails => phase s = Step 2 ∧ phase s' = Step 2
     | EvShare _ => phase s = Step 3 ∧ phase s' = Step 3
     end) ∧
  (∀ e, is_Some (fire e s) ↔
        match e with
        | EvSelectRecall _ => True
        | EvConfirm _ => phase s = Step 1
        | EvToggleStep stepId =>
            phase s = Step 2 ∧ stepId ∈ RecallDetailStep2.stepIds
        | EvMarkAsDone | EvSaveDetails | EvBack => phase s = Step 2
        | EvFinish _ | EvShare _ => phase s = Step 3
        | EvDismiss | EvCloseButton => phase s ≠ Closed
        | EvTimer => 0 < pendingClose s
        end) ∧
  (∀ e s', fire e s = Some s' → phase s' ≠ phase s → e ≠ EvTimer →
     ∃ trig dir, triggers e trig ∧ spec_transition (phase s) trig (phase s') dir ∧
                 ∀ d, dir = Some d → slideDirection s' = d).
Proof.
  intros Hr. destruct (reachable_invariant s Hr) as [Hv _].
  split; [exact Hv|]. split_and!.
  - intros e s' Hf. split; [by eapply fire_validStep|]. split.
    + intros [H1 H3]. pose proof (fire_follows_table e s s' Hf) as Htable.
      rewrite H1, H3 in Htable.
      destruct Htable as [Heq|[[_ Heq]|(trig & dir & _ & Hrow & _)]];
        [discriminate Heq|discriminate Heq|inversion Hrow].
    + apply fire_Some in Hf as [Hen ->].
      destruct e as [recall|hasProduct|stepId| | | |formattedTime|outcome| | |].
      * rewrite commit_phase, commit_slideDirection.
        destruct s as [sel ban stamp cur dir chk pend log]; by destruct sel.
      * apply phase_Step_shows in Hen as Hp.
        rewrite commit_phase, commit_slideDirection,
          (proj1 (proj2 (proj2 (proj2 (commit_keeps _ _))))).
        fire_cases s Hen. by destruct hasProduct.
      * simpl in Hen. apply andb_true_iff in Hen as [Hen _].
        apply phase_Step_shows in Hen as Hp. rewrite commit_phase.
        fire_cases s Hen. done.
      * apply phase_Step_shows in Hen as Hp. split; [done|].
        unfold handler, RecallDetailStep2.handleMarkAsDone.
        destruct (RecallDetailStep2.allStepsComplete (checkedSteps s)).
        -- rewrite commit_phase, commit_slideDirection. fire_cases s Hen. done.
        -- by apply commit_same.
      * apply phase_Step_shows in Hen as Hp. rewrite commit_phase.
        fire_cases s Hen. done.
      * apply phase_Step_shows in Hen as Hp.
        rewrite commit_phase, commit_slideDirection. fire_cases s Hen. done.
      * apply phase_Step_shows in Hen as Hp. rewrite commit_phase.
        fire_cases s Hen. done.
      * apply phase_Step_shows in Hen as Hp. rewrite commit_phase.
        fire_cases s Hen. by destruct outcome.
      * rewrite commit_phase. fire_cases s Hen. done.
      * rewrite commit_phase.
        destruct s as [sel ban stamp cur dir chk pend log]; by destruct sel.
      * rewrite commit_phase. fire_cases s Hen. done.
  - intros e.
    assert (Hfire : is_Some (fire e s) ↔ enabled e s = true).
    { unfold fire. destruct (enabled e s); split; intros Hsome;
        try done; try (by eexists); by destruct Hsome. }
    rewrite Hfire.
    assert (Hopen : isOpen s = true ↔ phase s ≠ Closed).
    { unfold phase. by destruct (isOpen s). }
    destruct e as [recall|hasProduct|stepId| | | |formattedTime|outcome| | |]; simpl;
      rewrite ?phase_Step_shows; try done.
    + by rewrite andb_true_iff, includes_true.
    + apply bool_decide_eq_true.
  - intros e s' Hf Hchange Hnt.
    destruct (fire_follows_table e s s' Hf) as [Heq|[[-> _]|Hrow]]; done.
Qed.

Lemma transitions_follow_table_witness :
  ∃ s s',
    run [EvSelectRecall recall_crib; EvConfirm true; EvToggleStep 1; EvToggleStep 2;
         EvToggleStep 3] initial = Some s ∧
    fire EvMarkAsDone s = Some s' ∧
    currentStep s' ∈ [1; 2; 3] ∧
    ¬ (phase s = Step 1 ∧ phase s' = Step 3) ∧
    phase s = Step 2 ∧
    if RecallDetailStep2.allStepsComplete (checkedSteps s)
    then phase s' = Step 3 ∧ slideDirection s' = forward
    else s' = s.
Proof.
  exists (mkSystem (Some recall_crib) false "" 2 forward [1; 2; 3] 0 []),
         (mkSystem (Some recall_crib) false "" 3 forward [] 0 []).
  assert (Hrun : run [EvSelectRecall recall_crib; EvConfirm true; EvToggleStep 1;
                      EvToggleStep 2; EvToggleStep 3] initial
                 = Some (mkSystem (Some recall_crib) false "" 2 forward [1; 2; 3] 0 []))
    by (vm_compute; reflexivity).
  assert (Hfire : fire EvMarkAsDone
                    (mkSystem (Some recall_crib) false "" 2 forward [1; 2; 3] 0 [])
                  = Some (mkSystem (Some recall_crib) false "" 3 forward [] 0 []))
    by (vm_compute; reflexivity).
  split; [exact Hrun|]. split; [exact Hfire|].
  exact (proj1 (proj2 (transitions_follow_table _ (reachable_run _ _ Hrun)))
           EvMarkAsDone _ Hfire).
Defined.

(** ** Answering "No" on Step 1 *)

(** C7, as stated, fails.  What the parent receives after a "No" is the
    single [onClose()] it also receives when the user dismisses the
    modal, so no not-applicable notification reaches it; and between the
    "No" and the close it schedules the Step 1 buttons still work, so a
    "Yes" pressed in between enters Step 2. *)
Lemma no_answer_not_told_to_parent :
  (∃ sNo sCancel,
     run [EvSelectRecall recall_crib; EvConfirm false; EvTimer] initial = Some sNo ∧
     run [EvSelectRecall recall_crib; EvDismiss] initial = Some sCancel ∧
     parentCalls sNo = [mkCall prop_onClose []] ∧
     parentCalls sCancel = parentCalls sNo) ∧
  (∃ s, run [EvSelectRecall recall_crib; EvConfirm false; EvConfirm true] initial = Some s ∧
        phase s = Step 2).
Proof.
  split.
  - do 2 eexists. split; [reflexivity|]. split; [reflexivity|]. by split.
  - eexists. split; reflexivity.
Qed.

(** C7, amended: a "No" on Step 1 shows one toast, leaves the flow on
    Step 1 and schedules one close; when that timer runs next, the flow
    is closed with [currentStep] still 1, and the parent has received
    exactly one call, [onClose()] with no argument, and not the success
    callback. *)
Theorem no_answer_closes_after_timer (s : System) :
  shows 1 s = true →
  ∃ s1 s2,
    fire (EvConfirm false) s = Some s1 ∧
    phase s1 = Step 1 ∧
    pendingClose s1 = S (pendingClose s) ∧
    fire EvTimer s1 = Some s2 ∧
    phase s2 = Closed ∧
    currentStep s2 = 1 ∧
    pendingClose s2 = pendingClose s ∧
    calls s2 = calls s ++ [mkCall toast_success ["Thanks, we'll keep monitoring for you."];
                           mkCall prop_onClose []] ∧
    toasts s2 = toasts s ++ [mkCall toast_success ["Thanks, we'll keep monitoring for you."]] ∧
    parentCalls s2 = parentCalls s ++ [mkCall prop_onClose []].
Proof.
  intros Hs. apply shows_true in Hs as [Ho Hc].
  destruct s as [sel ban stamp cur dir chk pend log]; destruct sel as [shown|]; [|done].
  simpl in Hc. subst cur.
  exists (mkSystem (Some shown) ban stamp 1 dir []
            (S pend) (log ++ [mkCall toast_success ["Thanks, we'll keep monitoring for you."]])),
         (mkSystem None ban stamp 1 dir [] pend
            ((log ++ [mkCall toast_success ["Thanks, we'll keep monitoring for you."]])
             ++ [mkCall prop_onClose []])).
  split_and!; try reflexivity.
  - simpl. by rewrite <- app_assoc.
  - unfold toasts. simpl. rewrite !filter_app, <- app_assoc. by f_equal.
  - unfold parentCalls. simpl. rewrite !filter_app, <- app_assoc. by f_equal.
Qed.

Lemma no_answer_closes_after_timer_witness :
  ∃ s s1 s2,
    run [EvSelectRecall recall_crib] initial = Some s ∧
    fire (EvConfirm false) s = Some s1 ∧
    phase s1 = Step 1 ∧
    pendingClose s1 = S (pendingClose s) ∧
    fire EvTimer s1 = Some s2 ∧
    phase s2 = Closed ∧
    currentStep s2 = 1 ∧
    pendingClose s2 = pendingClose s ∧
    calls s2 = calls s ++ [mkCall toast_success ["Thanks, we'll keep monitoring for you."];
                           mkCall prop_onClose []] ∧
    toasts s2 = toasts s ++ [mkCall toast_success ["Thanks, we'll keep monitoring for you."]] ∧
    parentCalls s2 = parentCalls s ++ [mkCall prop_onClose []].
Proof.
  exists (mkSystem (Some recall_crib) false "" 1 forward [] 0 []).
  destruct (no_answer_closes_after_timer
              (mkSystem (Some recall_crib) false "" 1 forward [] 0 []) eq_refl)
    as (s1 & s2 & Hrun).
  exists s1, s2. split; [reflexivity|exact Hrun].
Defined.

(** ** Going back from Step 3 *)

Lemma back_disabled_on_step3 s : shows 3 s = true → fire EvBack s = None.
Proof.
  intros [Ho Hc]%shows_true. unfold fire. simpl. unfold shows.
  by rewrite Ho, Hc.
Qed.

Lemma no_event_from_step3_to_step2 s e s' :
  shows 3 s = true → fire e s = Some s' → phase s' ≠ Step 2.
Proof.
  intros Hs Hf Hp2.
  assert (Hphase : phase s = Step 3) by (by apply phase_Step_shows).
  destruct (fire_follows_table e s s' Hf)
    as [Heq|[[_ Heq]|(trig & dir & Htrig & Hrow & _)]].
  - rewrite Hphase, Hp2 in Heq. discriminate Heq.
  - rewrite Hp2 in Heq. discriminate Heq.
  - rewrite Hphase, Hp2 in Hrow. inversion Hrow; subst.
    inversion Htrig; subst. rewrite (back_disabled_on_step3 s Hs) in Hf.
    discriminate Hf.
Qed.

(** C8, as stated, fails: on Step 3 the back trigger is not offered,
    and nothing the Step 3 view offers leads to Step 2. *)
Lemma step3_has_no_way_back :
  ∃ s,
    run [EvSelectRecall recall_crib; EvConfirm true; EvToggleStep 1; EvToggleStep 2;
         EvToggleStep 3; EvMarkAsDone] initial = Some s ∧
    phase s = Step 3 ∧
    fire EvBack s = None ∧
    ∀ e s', fire e s = Some s' → phase s' ≠ Step 2.
Proof.
  exists (mkSystem (Some recall_crib) false "" 3 forward [] 0 []).
  split; [by vm_compute|]. split; [reflexivity|]. split; [reflexivity|].
  intros e s'. by apply no_event_from_step3_to_step2.
Qed.

(** C8, amended: from Step 3 the flow cannot go back.  The Step 3 view
    is given no back trigger (its props are the recall and [onClose]),
    and no event that can fire on Step 3 leads to Step 2; the
    orchestrator's [handleBackToStep2], which would show Step 2 with
    direction backward, is defined and passed to no view. *)
Theorem step3_offers_no_back (s : System) :
  shows 3 s = true →
  fire EvBack s = None ∧
  (∀ e s', fire e s = Some s' → phase s' ≠ Step 2) ∧
  phase (RecallDetailModal.handleBackToStep2 s) = Step 2 ∧
  slideDirection (RecallDetailModal.handleBackToStep2 s) = backward.
Proof.
  intros Hs. split_and!.
  - by apply back_disabled_on_step3.
  - intros e s'. by apply no_event_from_step3_to_step2.
  - apply shows_true in Hs as [Ho Hc].
    destruct s as [sel ban stamp cur dir chk pend log]; destruct sel; [|done].
    reflexivity.
  - reflexivity.
Qed.

Lemma step3_offers_no_back_witness :
  ∃ s,
    run [EvSelectRecall recall_crib; EvConfirm true; EvToggleStep 1; EvToggleStep 2;
         EvToggleStep 3; EvMarkAsDone] initial = Some s ∧
    fire EvBack s = None ∧
    (∀ e s', fire e s = Some s' → phase s' ≠ Step 2) ∧
    phase (RecallDetailModal.handleBackToStep2 s) = Step 2 ∧
    slideDirection (RecallDetailModal.handleBackToStep2 s) = backward.
Proof.
  exists (mkSystem (Some recall_crib) false "" 3 forward [] 0 []).
  split; [reflexivity|].
  exact (step3_offers_no_back
           (mkSystem (Some recall_crib) false "" 3 forward [] 0 []) eq_refl).
Defined.

(** * Further facts *)

(** ** Ways into Step 3 *)

(** In every state the screen can reach, an event that leaves the flow
    on Step 3 either found it there or is "Mark as Done" fired on Step 2
    with every item of the checklist acknowledged. *)
Theorem step3_only_after_complete_checklist (s s' : System) (e : Event) :
  reachable s →
  fire e s = Some s' →
  phase s' = Step 3 →
  phase s = Step 3 ∨
  (e = EvMarkAsDone ∧ phase s = Step 2 ∧
   ∀ step, step ∈ RecallDetailStep2.steps → RecallDetailStep2.id step ∈ checkedSteps s).
Proof.
  intros Hr Hf H3.
  destruct (fire_follows_table e s s' Hf)
    as [Heq|[[_ Heq]|(trig & dir & Htrig & Hrow & _)]].
  - left. by rewrite <- Heq.
  - rewrite H3 in Heq. discriminate Heq.
  - right. rewrite H3 in Hrow. inversion Hrow as [| | |Hp| | | |]; subst.
    inversion Htrig; subst. split; [done|]. split; [done|].
    destruct (reachable_invariant s Hr) as [_ Hwf].
    apply (allStepsComplete_iff _ Hwf).
    destruct (RecallDetailStep2.allStepsComplete (checkedSteps s)) eqn:Hall; [done|].
    exfalso. apply fire_Some in Hf as [Hen ->].
    unfold handler, RecallDetailStep2.handleMarkAsDone in H3. rewrite Hall in H3.
    simpl in Hen. rewrite (commit_same s Hen) in H3. congruence.
Qed.

Lemma step3_only_after_complete_checklist_witness :
  ∃ s s',
    run [EvSelectRecall recall_rocker; EvConfirm true; EvToggleStep 3; EvToggleStep 1;
         EvToggleStep 2] initial = Some s ∧
    fire EvMarkAsDone s = Some s' ∧
    (phase s = Step 3 ∨
     (EvMarkAsDone = EvMarkAsDone ∧ phase s = Step 2 ∧
      ∀ step, step ∈ RecallDetailStep2.steps →
              RecallDetailStep2.id step ∈ checkedSteps s)).
Proof.
  exists (mkSystem (Some recall_rocker) false "" 2 forward [3; 1; 2] 0 []),
         (mkSystem (Some recall_rocker) false "" 3 forward [] 0 []).
  assert (Hrun : run [EvSelectRecall recall_rocker; EvConfirm true; EvToggleStep 3;
                      EvToggleStep 1; EvToggleStep 2] initial
                 = Some (mkSystem (Some recall_rocker) false "" 2 forward [3; 1; 2] 0 []))
    by (vm_compute; reflexivity).
  assert (Hfire : fire EvMarkAsDone
                    (mkSystem (Some recall_rocker) false "" 2 forward [3; 1; 2] 0 [])
                  = Some (mkSystem (Some recall_rocker) false "" 3 forward [] 0 []))
    by (vm_compute; reflexivity).
  split; [exact Hrun|]. split; [exact Hfire|].
  exact (step3_only_after_complete_checklist _ _ _ (reachable_run _ _ Hrun) Hfire eq_refl).
Defined.

(** ** Going back discards the checklist *)

(** From Step 2, whatever is checked, the back chevron shows Step 1
    with direction backward, and a "Yes" there shows Step 2 again with
    an empty checklist and direction forward. *)
Theorem back_then_yes_restarts_checklist (s : System) :
  shows 2 s = true →
  ∃ s1 s2,
    fire EvBack s = Some s1 ∧
    phase s1 = Step 1 ∧
    slideDirection s1 = backward ∧
    fire (EvConfirm true) s1 = Some s2 ∧
    phase s2 = Step 2 ∧
    slideDirection s2 = forward ∧
    checkedSteps s2 = [] ∧
    selectedRecall s2 = selectedRecall s.
Proof.
  intros Hs. apply shows_true in Hs as [Ho Hc].
  destruct s as [sel ban stamp cur dir chk pend log]; destruct sel as [shown|]; [|done].
  simpl in Hc. subst cur.
  exists (mkSystem (Some shown) ban stamp 1 backward [] pend log),
         (mkSystem (Some shown) ban stamp 2 forward [] pend log).
  by split_and!.
Qed.

Lemma back_then_yes_restarts_checklist_witness :
  ∃ s s1 s2,
    run [EvSelectRecall recall_crib; EvConfirm true; EvToggleStep 2; EvToggleStep 3]
        initial = Some s ∧
    checkedSteps s = [2; 3] ∧
    fire EvBack s = Some s1 ∧
    phase s1 = Step 1 ∧
    slideDirection s1 = backward ∧
    fire (EvConfirm true) s1 = Some s2 ∧
    phase s2 = Step 2 ∧
    slideDirection s2 = forward ∧
    checkedSteps s2 = [] ∧
    selectedRecall s2 = selectedRecall s.
Proof.
  exists (mkSystem (Some recall_crib) false "" 2 forward [2; 3] 0 []).
  destruct (back_then_yes_restarts_checklist
              (mkSystem (Some recall_crib) false "" 2 forward [2; 3] 0 []) eq_refl)
    as (s1 & s2 & Hrest).
  exists s1, s2. split; [by vm_compute|]. split; [reflexivity|exact Hrest].
Defined.

(** ** Toasts only *)

(** "Save Details" on Step 2 shows one toast and changes nothing else:
    the flow stays on Step 2 with its checklist as it was. *)
Theorem save_details_only_toast (s : System) :
  shows 2 s = true →
  ∃ s', fire EvSaveDetails s = Some s' ∧
        s' = record toast_success ["Recall details saved to your Safety tab"] s ∧
        checkedSteps s' = checkedSteps s ∧
        phase s' = Step 2.
Proof.
  intros Hs. eexists. split; [apply fire_Some; split; [exact Hs|reflexivity]|].
  apply shows_true in Hs as [Ho Hc].
  destruct s as [sel ban stamp cur dir chk pend log]; destruct sel as [shown|]; [|done].
  simpl in Hc. by subst cur.
Qed.

Lemma save_details_only_toast_witness :
  ∃ s', fire EvSaveDetails (mkSystem (Some recall_crib) false "" 2 forward [2; 3] 0 [])
        = Some s' ∧
        s' = record toast_success ["Recall details saved to your Safety tab"]
               (mkSystem (Some recall_crib) false "" 2 forward [2; 3] 0 []) ∧
        checkedSteps s' = [2; 3] ∧
        phase s' = Step 2.
Proof.
  exact (save_details_only_toast
           (mkSystem (Some recall_crib) false "" 2 forward [2; 3] 0 []) eq_refl).
Defined.



(** ** Closing *)

(** The X button and the dialog's own close request both close an open
    flow from any step.  The parent gets one [onClose] call, bare from
    the dialog and carrying the click event from the X button; the
    success banner and its time are left as they were, the checklist is
    gone, and the step counter keeps its value until the next
    opening. *)
Theorem dismiss_closes_without_success (s : System) :
  isOpen s = true →
  (∃ s', fire EvDismiss s = Some s' ∧
         phase s' = Closed ∧
         calls s' = calls s ++ [mkCall prop_onClose []] ∧
         showSuccessBanner s' = showSuccessBanner s ∧
         successTimestamp s' = successTimestamp s ∧
         currentStep s' = currentStep s ∧
         checkedSteps s' = []) ∧
  (∃ s', fire EvCloseButton s = Some s' ∧
         phase s' = Closed ∧
         calls s' = calls s ++ [mkCallArgs prop_onClose [ArgClickEvent]] ∧
         showSuccessBanner s' = showSuccessBanner s ∧
         successTimestamp s' = successTimestamp s ∧
         currentStep s' = currentStep s ∧
         checkedSteps s' = []).
Proof.
  intros Ho. split.
  - eexists. split; [apply fire_Some; split; [exact Ho|reflexivity]|].
    rewrite commit_phase, commit_currentStep.
    destruct (commit_keeps s (handler EvDismiss s)) as (_ & -> & -> & _ & ->).
    destruct s as [sel ban stamp cur dir chk pend log]; destruct sel as [shown|]; [|done].
    split_and!; try reflexivity.
    unfold commit. simpl. unfold shows. simpl. by rewrite andb_false_r.
  - eexists. split; [apply fire_Some; split; [exact Ho|reflexivity]|].
    rewrite commit_phase, commit_currentStep.
    destruct (commit_keeps s (handler EvCloseButton s)) as (_ & -> & -> & _ & ->).
    destruct s as [sel ban stamp cur dir chk pend log]; destruct sel as [shown|]; [|done].
    split_and!; try reflexivity.
    unfold commit. simpl. unfold shows. simpl. by rewrite andb_false_r.
Qed.

Lemma dismiss_closes_without_success_witness :
  ∃ s', fire EvCloseButton (mkSystem (Some recall_crib) false "" 2 forward [1; 3] 0 [])
        = Some s' ∧
        phase s' = Closed ∧
        calls s' = [] ++ [mkCallArgs prop_onClose [ArgClickEvent]] ∧
        showSuccessBanner s' = false ∧
        successTimestamp s' = "" ∧
        currentStep s' = 2 ∧
        checkedSteps s' = [].
Proof.
  exact (proj2 (dismiss_closes_without_success
                  (mkSystem (Some recall_crib) false "" 2 forward [1; 3] 0 []) eq_refl)).
Defined.

(** A scheduled close is never cancelled: no event other than the timer
    itself lowers the number of pending timers, and when a timer runs it
    closes whatever the modal shows at that moment, with one
    [onClose()]. *)
Theorem pending_timer_closes_any_session (s : System) :
  0 < pendingClose s →
  (∃ s', fire EvTimer s = Some s' ∧
         phase s' = Closed ∧
         pendingClose s' = pendingClose s - 1 ∧
         calls s' = calls s ++ [mkCall prop_onClose []]) ∧
  (∀ e s', e ≠ EvTimer → fire e s = Some s' → pendingClose s ≤ pendingClose s').
Proof.
  intros Hp. split.
  - eexists. split; [apply fire_Some; split; [by apply bool_decide_eq_true_2|reflexivity]|].
    rewrite commit_phase.
    destruct (commit_keeps s (handler EvTimer s)) as (_ & _ & _ & -> & ->).
    destruct s as [sel ban stamp cur dir chk pend log]. simpl in *.
    split_and!; [by destruct sel| lia |reflexivity].
  - intros e s' Hne [Hen ->]%fire_Some.
    destruct (commit_keeps s (handler e s)) as (_ & _ & _ & -> & _).
    destruct e as [recall|hasProduct|stepId| | | |formattedTime|outcome| | |]; try done.
    + by destruct hasProduct; simpl; [|lia].
    + unfold handler, RecallDetailStep2.handleMarkAsDone.
      by destruct (RecallDetailStep2.allStepsComplete _).
    + by destruct outcome.
Qed.

Lemma pending_timer_closes_any_session_witness :
  ∃ s s',
    run [EvSelectRecall recall_crib; EvConfirm false; EvDismiss;
         EvSelectRecall recall_rocker; EvConfirm true] initial = Some s ∧
    selectedRecall s = Some recall_rocker ∧
    phase s = Step 2 ∧
    fire EvTimer s = Some s' ∧
    phase s' = Closed ∧
    pendingClose s' = pendingClose s - 1 ∧
    calls s' = calls s ++ [mkCall prop_onClose []].
Proof.
  exists (mkSystem (Some recall_rocker) false "" 2 forward [] 1
            [mkCall toast_success ["Thanks, we'll keep monitoring for you."];
             mkCall prop_onClose []]).
  destruct (proj1 (pending_timer_closes_any_session
              (mkSystem (Some recall_rocker) false "" 2 forward [] 1
                 [mkCall toast_success ["Thanks, we'll keep monitoring for you."];
                  mkCall prop_onClose []])
              (Nat.lt_0_1))) as [s' Hs'].
  exists s'. split; [by vm_compute|]. split; [reflexivity|]. split; [reflexivity|exact Hs'].
Defined.

(** The parent is called exactly when the flow closes: an event either
    makes no call to the parent and leaves an open flow open, or it
    makes exactly one call and leaves the flow closed. *)
Theorem parent_called_exactly_on_close (e : Event) (s s' : System) :
  fire e s = Some s' →
  (parentCalls s' = parentCalls s ∧ (isOpen s = true → isOpen s' = true)) ∨
  (∃ c, parentCalls s' = parentCalls s ++ [c] ∧ isOpen s' = false).
Proof.
  intros [Hen ->]%fire_Some. rewrite parentCalls_commit, isOpen_commit.
  unfold parentCalls.
  destruct e as [recall|hasProduct|stepId| | | |formattedTime|outcome| | |].
  - left. by split.
  - left. destruct hasProduct; simpl; [by split|].
    rewrite filter_app. simpl. by rewrite app_nil_r.
  - left. by split.
  - left. unfold handler, RecallDetailStep2.handleMarkAsDone.
    by destruct (RecallDetailStep2.allStepsComplete _).
  - left. simpl. rewrite filter_app. simpl. by rewrite app_nil_r.
  - left. by split.
  - right. exists (mkCall prop_onCloseWithSuccess []). simpl.
    by rewrite filter_app.
  - left. destruct outcome; simpl; try (rewrite filter_app; simpl; rewrite app_nil_r); by split.
  - right. exists (mkCall prop_onClose []). simpl. by rewrite filter_app.
  - right. exists (mkCall prop_onClose []). simpl. by rewrite filter_app.
  - right. exists (mkCallArgs prop_onClose [ArgClickEvent]). simpl.
    by rewrite filter_app.
Qed.

Lemma parent_called_exactly_on_close_witness :
  (parentCalls (mkSystem None true "3:05 PM" 3 forward [] 0
                  [mkCall prop_onCloseWithSuccess []])
   = parentCalls (mkSystem (Some recall_crib) false "" 3 forward [] 0 []) ∧
   (isOpen (mkSystem (Some recall_crib) false "" 3 forward [] 0 []) = true →
    isOpen (mkSystem None true "3:05 PM" 3 forward [] 0
              [mkCall prop_onCloseWithSuccess []]) = true)) ∨
  (∃ c, parentCalls (mkSystem None true "3:05 PM" 3 forward [] 0
                       [mkCall prop_onCloseWithSuccess []])
        = parentCalls (mkSystem (Some recall_crib) false "" 3 forward [] 0 []) ++ [c] ∧
        isOpen (mkSystem None true "3:05 PM" 3 forward [] 0
                  [mkCall prop_onCloseWithSuccess []]) = false).
Proof.
  apply (parent_called_exactly_on_close (EvFinish "3:05 PM")
           (mkSystem (Some recall_crib) false "" 3 forward [] 0 [])).
  by vm_compute.
Defined.

(** ** The checklist of ActionGuideScreen *)

Lemma actionGuideStepIds_eq : actionGuideStepIds = ["step1"; "step2"; "step3"].
Proof. reflexivity. Qed.

(** What clicks keep true of the array of ActionGuideScreen. *)
Lemma actionGuide_toggle_keeps stepId prev :
  "step1" ∈ prev → NoDup prev →
  "step1" ∈ ActionGuideScreen.toggleStep stepId prev ∧
  NoDup (ActionGuideScreen.toggleStep stepId prev).
Proof.
  intros Hin Hnd. unfold ActionGuideScreen.toggleStep.
  destruct (decide (stepId = "step1")) as [->|Hne].
  - by rewrite bool_decide_eq_true_2.
  - rewrite bool_decide_eq_false_2 by done. split.
    + apply elem_of_toggle. left. split; [congruence|done].
    + by apply NoDup_toggle.
Qed.

Lemma actionGuide_toggle_subseteq stepId prev :
  stepId ∈ actionGuideStepIds → prev ⊆ actionGuideStepIds →
  ActionGuideScreen.toggleStep stepId prev ⊆ actionGuideStepIds.
Proof.
  intros Hid Hsub. unfold ActionGuideScreen.toggleStep.
  destruct (bool_decide _); [done|]. by apply toggle_subseteq.
Qed.

(** In ActionGuideScreen, whatever rows are clicked and in whatever
    order, 'step1' stays checked and no id is held twice; and when the
    clicks are on rendered rows, the length test that brings up the
    completion overlay holds exactly when 'step2' and 'step3' are both
    checked. *)
Theorem action_guide_first_step_stays_checked (stepIdsClicked : list string) :
  "step1" ∈ actionGuideClicks stepIdsClicked ∧
  NoDup (actionGuideClicks stepIdsClicked) ∧
  (Forall (λ stepId, stepId ∈ actionGuideStepIds) stepIdsClicked →
   ActionGuideScreen.allDone (actionGuideClicks stepIdsClicked) = true ↔
   "step2" ∈ actionGuideClicks stepIdsClicked ∧
   "step3" ∈ actionGuideClicks stepIdsClicked).
Proof.
  unfold actionGuideClicks.
  assert (Hinit : "step1" ∈ ActionGuideScreen.initialCheckedSteps ∧
                  NoDup ActionGuideScreen.initialCheckedSteps ∧
                  ActionGuideScreen.initialCheckedSteps ⊆ actionGuideStepIds).
  { split_and!.
    - apply list_elem_of_here.
    - apply NoDup_singleton.
    - intros x ->%list_elem_of_singleton. apply list_elem_of_here. }
  revert Hinit. generalize ActionGuideScreen.initialCheckedSteps as acc.
  induction stepIdsClicked as [|stepId rest IH]; intros acc (Hin & Hnd & Hsub); simpl.
  - split; [done|]. split; [done|]. intros _.
    unfold ActionGuideScreen.allDone. rewrite Nat.eqb_eq.
    replace (length ActionGuideScreen.steps) with (length actionGuideStepIds)
      by reflexivity.
    assert (Hids : NoDup actionGuideStepIds)
      by (apply (bool_decide_unpack _); reflexivity).
    rewrite (length_complete _ _ Hnd Hids Hsub). split.
    + intros Hall. split; apply Hall; apply (bool_decide_unpack _); reflexivity.
    + intros [H2 H3] x Hx. rewrite actionGuideStepIds_eq in Hx.
      repeat (apply elem_of_cons in Hx as [->|Hx]; [done|]).
      by apply elem_of_nil in Hx.
  - destruct (actionGuide_toggle_keeps stepId acc Hin Hnd) as [Hin' Hnd'].
    destruct (decide (stepId ∈ actionGuideStepIds)) as [Hid|Hid].
    + destruct (IH (ActionGuideScreen.toggleStep stepId acc)) as (H1 & H2 & H3).
      { split_and!; [done..|]. by apply actionGuide_toggle_subseteq. }
      split; [done|]. split; [done|]. intros Hall. apply H3.
      by inversion Hall.
    + assert (Hweak : ∀ acc', "step1" ∈ acc' → NoDup acc' →
                "step1" ∈ foldl (λ prev i, ActionGuideScreen.toggleStep i prev) acc' rest ∧
                NoDup (foldl (λ prev i, ActionGuideScreen.toggleStep i prev) acc' rest)).
      { clear. induction rest as [|i rest IH]; intros acc' Hin Hnd; simpl; [done|].
        destruct (actionGuide_toggle_keeps i acc' Hin Hnd). by apply IH. }
      destruct (Hweak _ Hin' Hnd') as [H1 H2].
      split; [done|]. split; [done|]. intros Hall. by inversion Hall.
Qed.

Lemma action_guide_first_step_stays_checked_witness :
  Forall (λ stepId, stepId ∈ actionGuideStepIds) ["step3"; "step1"; "step2"; "step3"] ∧
  (ActionGuideScreen.allDone (actionGuideClicks ["step3"; "step1"; "step2"; "step3"]) = true ↔
   "step2" ∈ actionGuideClicks ["step3"; "step1"; "step2"; "step3"] ∧
   "step3" ∈ actionGuideClicks ["step3"; "step1"; "step2"; "step3"]).
Proof.
  assert (Hall : Forall (λ stepId, stepId ∈ actionGuideStepIds)
                   ["step3"; "step1"; "step2"; "step3"])
    by (apply (bool_decide_unpack _); vm_compute; reflexivity).
  split; [exact Hall|].
  exact (proj2 (proj2 (action_guide_first_step_stays_checked
                         ["step3"; "step1"; "step2"; "step3"])) Hall).
Defined.

(** ** Recent scans *)

Lemma take_3_after_insert {Scan : Type} (before : list Scan) (scan : Scan) (prev : list Scan) :
  take 3 (before ++ scan :: take 2 prev) = take 3 (before ++ scan :: prev).
Proof.
  destruct before as [|a [|b [|c before]]]; simpl; try reflexivity.
  - rewrite take_take. reflexivity.
  - rewrite take_take. reflexivity.
Qed.

(** After any number of scans the list of recent scans holds the last
    three of them at most, the newest first. *)
Theorem recent_scans_are_last_three {Scan : Type} (scans : list Scan) :
  SafetyScreenLists.scanned scans = take 3 (reverse scans) ∧
  length (SafetyScreenLists.scanned scans) ≤ 3.
Proof.
  assert (Hgen : ∀ (acc : list Scan), length acc ≤ 3 →
            foldl (λ prev scan, SafetyScreenLists.handleProductScanned scan prev) acc scans
            = take 3 (reverse scans ++ acc)).
  { induction scans as [|scan rest IH]; intros acc Hacc; simpl.
    - by rewrite take_ge.
    - rewrite IH.
      + unfold SafetyScreenLists.handleProductScanned.
        rewrite reverse_cons, <- app_assoc. simpl. apply take_3_after_insert.
      + unfold SafetyScreenLists.handleProductScanned. simpl.
        rewrite length_take. lia. }
  unfold SafetyScreenLists.scanned. rewrite (Hgen [] (Nat.le_0_l 3)), app_nil_r.
  split; [reflexivity|]. rewrite length_take. lia.
Qed.

(** ** The recall list of SafetyScreen *)

Lemma insertSorted_Permutation a sorted :
  SafetyScreenLists.insertSorted a sorted ≡ₚ a :: sorted.
Proof.
  induction sorted as [|b rest IH]; simpl; [done|].
  destruct (_ <=? _)%Z; [done|].
  rewrite IH. apply Permutation_swap.
Qed.

Lemma sortedRecalls_Permutation recalls :
  SafetyScreenLists.sortedRecalls recalls ≡ₚ recalls.
Proof.
  induction recalls as [|a rest IH]; simpl; [done|].
  unfold SafetyScreenLists.sortedRecalls in *. simpl.
  by rewrite insertSorted_Permutation, IH.
Qed.

Lemma insertSorted_sorted a sorted :
  StronglySorted bySeverity sorted →
  StronglySorted bySeverity (SafetyScreenLists.insertSorted a sorted).
Proof.
  induction sorted as [|b rest IH]; intros Hs; simpl.
  - repeat constructor.
  - apply StronglySorted_inv in Hs as [Hrest Hb].
    destruct (_ <=? _)%Z eqn:Hcmp.
    + apply Z.leb_le in Hcmp. unfold SafetyScreenLists.compareSeverity in Hcmp.
      constructor; [by constructor|].
      constructor; [unfold bySeverity; lia|].
      eapply Forall_impl; [exact Hb|]. unfold bySeverity. intros c Hc. simpl in Hc. lia.
    + apply Z.leb_gt in Hcmp. unfold SafetyScreenLists.compareSeverity in Hcmp.
      constructor; [by apply IH|].
      rewrite insertSorted_Permutation.
      constructor; [unfold bySeverity; lia|done].
Qed.

Lemma sortedRecalls_sorted recalls :
  StronglySorted bySeverity (SafetyScreenLists.sortedRecalls recalls).
Proof.
  induction recalls as [|a rest IH]; simpl; [constructor|].
  by apply insertSorted_sorted.
Qed.

Lemma severityOrder_inj sev1 sev2 :
  SafetyScreenLists.severityOrder sev1 = SafetyScreenLists.severityOrder sev2 → sev1 = sev2.
Proof. by destruct sev1, sev2. Qed.

Lemma insertSorted_filter_severity sev a sorted :
  filter (λ item, SafetyScreenLists.severity item = sev)
         (SafetyScreenLists.insertSorted a sorted)
  = filter (λ item, SafetyScreenLists.severity item = sev) (a :: sorted).
Proof.
  induction sorted as [|b rest IH]; simpl; [done|].
  destruct (_ <=? _)%Z eqn:Hcmp; [done|].
  apply Z.leb_gt in Hcmp. unfold SafetyScreenLists.compareSeverity in Hcmp.
  destruct (decide (SafetyScreenLists.severity b = sev)) as [Hb|Hb].
  - assert (Ha : SafetyScreenLists.severity a ≠ sev).
    { intros Ha. rewrite Ha, <- Hb in Hcmp. lia. }
    rewrite (filter_cons_True _ b) by done.
    rewrite IH. rewrite !(filter_cons_False _ a) by done.
    by rewrite filter_cons_True.
  - rewrite (filter_cons_False _ b) by done. rewrite IH.
    destruct (decide (SafetyScreenLists.severity a = sev)).
    + rewrite !(filter_cons_True _ a) by done. by rewrite filter_cons_False.
    + rewrite !(filter_cons_False _ a) by done. by rewrite filter_cons_False.
Qed.

(** Sorting the recalls rearranges them, puts them in the order of
    [severityOrder] (Critical first), and keeps the recalls of one
    severity in the order they had. *)
Theorem sorted_recalls_stable (recalls : list SafetyScreenLists.RecallItem) :
  SafetyScreenLists.sortedRecalls recalls ≡ₚ recalls ∧
  StronglySorted bySeverity (SafetyScreenLists.sortedRecalls recalls) ∧
  ∀ sev, filter (λ item, SafetyScreenLists.severity item = sev)
                (SafetyScreenLists.sortedRecalls recalls)
         = filter (λ item, SafetyScreenLists.severity item = sev) recalls.
Proof.
  split; [apply sortedRecalls_Permutation|].
  split; [apply sortedRecalls_sorted|].
  intros sev. induction recalls as [|a rest IH]; [done|].
  change (SafetyScreenLists.sortedRecalls (a :: rest))
    with (SafetyScreenLists.insertSorted a (SafetyScreenLists.sortedRecalls rest)).
  rewrite insertSorted_filter_severity.
  destruct (decide (SafetyScreenLists.severity a = sev)).
  - rewrite !(filter_cons_True _ a) by done. by rewrite IH.
  - rewrite !(filter_cons_False _ a) by done. by rewrite IH.
Qed.

(** Whatever the filter and whether or not all recalls are asked for,
    every recall in the list comes from [recallItems] and passes the
    filter, and the list is in the order of [severityOrder]; it is a
    part of the sorted filtered recalls, at most three of them unless
    all are asked for, and then a rearrangement of all that pass the
    filter. *)
Theorem recall_list_filtered_sorted
    (activeFilter : SafetyScreenLists.ActiveFilter) (showAllRecalls : bool)
    (recallItems : list SafetyScreenLists.RecallItem) :
  (∀ item, item ∈ SafetyScreenLists.recallList activeFilter showAllRecalls recallItems →
           item ∈ recallItems ∧ SafetyScreenLists.keeps activeFilter item = true) ∧
  StronglySorted bySeverity
    (SafetyScreenLists.recallList activeFilter showAllRecalls recallItems) ∧
  SafetyScreenLists.recallList activeFilter showAllRecalls recallItems
    `sublist_of` SafetyScreenLists.sortedRecalls
                   (SafetyScreenLists.filteredRecalls activeFilter recallItems) ∧
  (showAllRecalls = false →
   length (SafetyScreenLists.recallList activeFilter showAllRecalls recallItems) ≤ 3) ∧
  (showAllRecalls = true →
   SafetyScreenLists.recallList activeFilter showAllRecalls recallItems
   ≡ₚ SafetyScreenLists.filteredRecalls activeFilter recallItems).
Proof.
  unfold SafetyScreenLists.recallList, SafetyScreenLists.displayRecalls.
  set (sorted := SafetyScreenLists.sortedRecalls
                   (SafetyScreenLists.filteredRecalls activeFilter recallItems)).
  assert (Hsub : (if showAllRecalls then sorted else take 3 sorted) `sublist_of` sorted).
  { destruct showAllRecalls; [done|apply sublist_take]. }
  split_and!.
  - intros item Hin.
    assert (Hs : item ∈ sorted) by (eapply elem_of_sublist; [exact Hin|exact Hsub]).
    unfold sorted in Hs. rewrite sortedRecalls_Permutation in Hs.
    unfold SafetyScreenLists.filteredRecalls in Hs.
    apply list_elem_of_filter in Hs as [Hk Hi]. by split.
  - destruct showAllRecalls; [apply sortedRecalls_sorted|].
    pose proof (sortedRecalls_sorted
                  (SafetyScreenLists.filteredRecalls activeFilter recallItems)) as Hs.
    fold sorted in Hs. rewrite <- (take_drop 3 sorted) in Hs.
    by apply StronglySorted_app_1_l in Hs.
  - exact Hsub.
  - intros ->. rewrite length_take. lia.
  - intros ->. apply sortedRecalls_Permutation.
Qed.

Lemma recall_list_filtered_sorted_witness :
  length (SafetyScreenLists.recallList SafetyScreenLists.urgent false
            SafetyScreenLists.recallItems) ≤ 3.
Proof.
  exact (proj1 (proj2 (proj2 (proj2
           (recall_list_filtered_sorted SafetyScreenLists.urgent false
              SafetyScreenLists.recallItems)))) eq_refl).
Defined.


(** ** Editing the action steps in DataSimulationPanel *)

Lemma filterIndex_past {A : Type} (index i : nat) (l : list A) :
  index < i →
  DataSimulationPanel.filterIndex (λ j, negb (j =? index)) i l = l.
Proof.
  revert i. induction l as [|x rest IH]; intros i Hi; simpl; [done|].
  destruct (i =? index) eqn:Heq; [apply Nat.eqb_eq in Heq; lia|].
  simpl. rewrite IH by lia. done.
Qed.

Lemma filterIndex_delete {A : Type} (index i : nat) (l : list A) :
  i ≤ index →
  DataSimulationPanel.filterIndex (λ j, negb (j =? index)) i l = delete (index - i) l.
Proof.
  revert i. induction l as [|x rest IH]; intros i Hi; simpl; [done|].
  destruct (i =? index) eqn:Heq.
  - apply Nat.eqb_eq in Heq. subst i. rewrite Nat.sub_diag. simpl.
    apply filterIndex_past. lia.
  - apply Nat.eqb_neq in Heq. simpl. rewrite IH by lia.
    replace (index - i) with (S (index - S i)) by lia. done.
Qed.

Lemma mapIndex_past (index i : nat) (value : string) (l : list string) :
  index < i →
  DataSimulationPanel.mapIndex (λ action j, if j =? index then value else action) i l = l.
Proof.
  revert i. induction l as [|x rest IH]; intros i Hi; simpl; [done|].
  destruct (i =? index) eqn:Heq; [apply Nat.eqb_eq in Heq; lia|].
  rewrite IH by lia. done.
Qed.

Lemma mapIndex_insert (index i : nat) (value : string) (l : list string) :
  i ≤ index →
  DataSimulationPanel.mapIndex (λ action j, if j =? index then value else action) i l
  = <[index - i := value]> l.
Proof.
  revert i. induction l as [|x rest IH]; intros i Hi; simpl; [done|].
  destruct (i =? index) eqn:Heq.
  - apply Nat.eqb_eq in Heq. subst i. rewrite Nat.sub_diag. simpl.
    f_equal. apply mapIndex_past. lia.
  - apply Nat.eqb_neq in Heq. rewrite IH by lia.
    replace (index - i) with (S (index - S i)) by lia. done.
Qed.

Lemma handleRemoveAction_actions index d :
  DataSimulationPanel.actions (DataSimulationPanel.handleRemoveAction index d)
  = delete index (DataSimulationPanel.actions d).
Proof. simpl. rewrite filterIndex_delete by lia. by rewrite Nat.sub_0_r. Qed.

Lemma handleActionChange_actions index value d :
  DataSimulationPanel.actions (DataSimulationPanel.handleActionChange index value d)
  = <[index := value]> (DataSimulationPanel.actions d).
Proof. simpl. rewrite mapIndex_insert by lia. by rewrite Nat.sub_0_r. Qed.






(** Through the controls the form offers for the action steps (add,
    remove, change, reset), the list of action steps is never empty:
    the remove buttons are only there while the list has more than one
    entry. *)
Theorem edited_actions_never_empty (es : list DataSimulationPanel.Edit) :
  0 < length (DataSimulationPanel.actions (DataSimulationPanel.edits es)).
Proof.
  unfold DataSimulationPanel.edits.
  assert (Hinit : 0 < length (DataSimulationPanel.actions DataSimulationPanel.defaultData))
    by (simpl; lia).
  revert Hinit. generalize DataSimulationPanel.defaultData as d.
  induction es as [|e rest IH]; intros d Hd; simpl; [done|].
  apply IH. unfold DataSimulationPanel.edit.
  destruct (DataSimulationPanel.offered e d) eqn:Hoff; [|done].
  destruct e as [|index|index value|].
  - simpl. rewrite length_app. simpl. lia.
  - simpl in Hoff. apply andb_true_iff in Hoff as [Hmany Hin].
    apply Nat.ltb_lt in Hmany. apply Nat.ltb_lt in Hin.
    rewrite handleRemoveAction_actions, length_delete by (by apply lookup_lt_is_Some_2).
    lia.
  - by rewrite handleActionChange_actions, length_insert.
  - simpl. lia.
Qed.

(** ** The image carousel of RecallDetailStep1 *)

Lemma images_length recall :
  1 ≤ length (RecallDetailStep1.images recall) ≤ 3.
Proof.
  unfold RecallDetailStep1.images.
  assert (Hsingle : ∀ single : list string, length single = 1 → 1 ≤ length single ≤ 3)
    by (intros; lia).
  destruct (RecallDetailStep1.Props.images recall) as [given|].
  - destruct (0 <? length given) eqn:Hpos.
    + apply Nat.ltb_lt in Hpos. rewrite length_take. lia.
    + apply Hsingle.
      destruct (RecallDetailStep1.Props.recall_type recall) as [[| | |]|];
        destruct (RecallDetailStep1.Props.food_label_image recall); try reflexivity.
      by destruct (RecallDetailStep1.truthy _).
  - apply Hsingle.
    destruct (RecallDetailStep1.Props.recall_type recall) as [[| | |]|];
      destruct (RecallDetailStep1.Props.food_label_image recall); try reflexivity.
    by destruct (RecallDetailStep1.truthy _).
Qed.



Section carousel_facts.
Context {Coord : Type}.
Variable isFalsy : Coord → bool.
Variable minus : Coord → Coord → Coord.
Variable greaterThan lessThan : Coord → Coord → bool.
Variable minSwipeDistance negMinSwipeDistance : Coord.

Lemma gesture_in_range (shown : list string) g (c : RecallDetailStep1.Carousel) :
  RecallDetailStep1.currentImageIndex c < length shown →
  RecallDetailStep1.currentImageIndex
    (RecallDetailStep1.gesture isFalsy minus greaterThan lessThan
       minSwipeDistance negMinSwipeDistance shown g c) < length shown.
Proof.
  intros Hc. unfold RecallDetailStep1.gesture.
  destruct (RecallDetailStep1.offered shown g) eqn:Hoff; [|done].
  destruct g as [clientX|clientX| |index]; simpl.
  - done.
  - done.
  - unfold RecallDetailStep1.onTouchEnd.
    destruct (RecallDetailStep1.touchStart c) as [startX|]; [|done].
    destruct (RecallDetailStep1.touchEnd c) as [endX|]; [|done].
    destruct (_ || _); [done|]. simpl.
    destruct (greaterThan _ _), (lessThan _ _); simpl;
      repeat match goal with
             | |- context [ ?a <? ?b ] =>
                 let H := fresh in destruct (a <? b) eqn:H;
                 [apply Nat.ltb_lt in H|apply Nat.ltb_ge in H]
             end; simpl; lia.
  - simpl in Hoff. apply andb_true_iff in Hoff as [_ Hin]. by apply Nat.ltb_lt in Hin.
Qed.

(** Whatever touches and dot clicks the carousel receives, in any
    order and with any coordinates, the current image index designates
    one of the images shown. *)
Theorem carousel_index_in_range
    (recall : RecallDetailStep1.Props.t) (gs : list RecallDetailStep1.Gesture) :
  RecallDetailStep1.currentImageIndex
    (RecallDetailStep1.gestures isFalsy minus greaterThan lessThan
       minSwipeDistance negMinSwipeDistance (RecallDetailStep1.images recall) gs)
  < length (RecallDetailStep1.images recall).
Proof.
  unfold RecallDetailStep1.gestures.
  assert (Hinit : RecallDetailStep1.currentImageIndex
                    (RecallDetailStep1.mounted (Coord := Coord))
                  < length (RecallDetailStep1.images recall)).
  { pose proof (images_length recall). simpl. lia. }
  revert Hinit. generalize (RecallDetailStep1.mounted (Coord := Coord)) as c.
  induction gs as [|g rest IH]; intros c Hc; simpl; [done|].
  apply IH. by apply gesture_in_range.
Qed.
End carousel_facts.
